(** * The Phoible raw-data pipeline of [cldfbench_myphoible.py]

    A shallow embedding of the reader, normaliser, identifier generator and
    aggregator of the dataset script, with the properties its specification
    states about them.

    Python strings are sequences of Unicode code points, and the script looks
    at code points (through [ord], indexing and slicing), so a string is a
    [list N] here.  A Python exception is a [Raise] in the [result] monad.
    The libraries the script calls ([unicodedata], [unidecode], [clldutils],
    [pyclts]) are not part of the repository: they are section variables. *)

From Stdlib Require Import NArith Ascii String.
From Stdlib Require Import Hexadecimal HexadecimalFacts HexadecimalN.
From Stdlib Require Import Decimal DecimalString.
From Stdlib Require DecimalN.
From stdpp Require Import base option list gmap.

Set Default Proof Using "Type".

(** ** The fragment of Python the script uses *)

Module Py.

(** A Python [str]: its code points. *)
Abbreviation str := (list N).

(** [ord] of an ASCII character, and a string literal. *)
Definition chr (a : ascii) : N := N_of_ascii a.
Definition lit (s : string) : str := chr <$> list_ascii_of_string s.

(** The exceptions the modelled code can raise. *)
Inductive exn : Set :=
| IndexError
| KeyError
| AssertionError
| TypeError
| StopIteration
| AttributeError.

Inductive result (A : Type) : Type :=
| Ok (a : A)
| Raise (e : exn).
Arguments Ok {A} a.
Arguments Raise {A} e.

Definition bind {A B : Type} (r : result A) (f : A -> result B) : result B :=
  match r with
  | Ok a => f a
  | Raise e => Raise e
  end.

Notation "x <- e ;; k" := (bind e (fun x => k))
  (at level 100, e at next level, right associativity).

(** [for x in xs: st = body(st, x)], stopping at the first exception. *)
Fixpoint for_each {S X : Type} (body : S -> X -> result S) (xs : list X) (st : S)
  : result S :=
  match xs with
  | [] => Ok st
  | x :: xs' => st' <- body st x ;; for_each body xs' st'
  end.

(** [s[0]] and [s[-1]]: [IndexError] on the empty string. *)
Definition first (s : str) : result N :=
  match s with
  | [] => Raise IndexError
  | c :: _ => Ok c
  end.

Definition final (s : str) : result N :=
  match last s with
  | None => Raise IndexError
  | Some c => Ok c
  end.

(** [s[1:-1]]: slicing never raises; a string of length at most two gives
    the empty string. *)
Definition strip_ends (s : str) : str := removelast (tail s).

(** [s[0] == a and s[-1] == b], with the short circuit of [and]. *)
Definition bounded_by (a b : N) (s : str) : result bool :=
  c <- first s ;;
  if N.eqb c a then d <- final s ;; Ok (N.eqb d b) else Ok false.

(** [s.split(sep)[0]] for a one-character separator: the text before the
    first separator, the whole string when there is none. *)
Fixpoint split_head (sep : N) (s : str) : str :=
  match s with
  | [] => []
  | c :: s' => if N.eqb c sep then [] else c :: split_head sep s'
  end.

(** [sep in s]. *)
Definition contains (sep : N) (s : str) : bool := existsb (N.eqb sep) s.

(** Truthiness of a cell read by [csv.DictReader]: [None] (a short row) and
    the empty string are false. *)
Definition truthy (cell : option str) : bool :=
  match cell with
  | Some (_ :: _) => true
  | _ => false
  end.

(** [d[k]] on a dict: [KeyError] for a missing key. *)
Definition getitem {V : Type} (d : gmap str V) (k : str) : result V :=
  match d !! k with
  | Some v => Ok v
  | None => Raise KeyError
  end.

(** A call of a library function that ends in an [assert] on its result:
    [None] where the assertion fails. *)
Definition asserting {A : Type} (r : option A) : result A :=
  match r with
  | Some a => Ok a
  | None => Raise AssertionError
  end.

(** [next(it)]: the first item of an iterator and the iterator after it,
    [StopIteration] when it is exhausted. *)
Definition next {A : Type} (it : list A) : result (A * list A) :=
  match it with
  | [] => Raise StopIteration
  | x :: it' => Ok (x, it')
  end.

(** The receiver of a [str] method call: a cell that is [None] has no such
    method. *)
Definition str_method (cell : option str) : result str :=
  match cell with
  | Some s => Ok s
  | None => Raise AttributeError
  end.

(** An f-string hole holding a value that may be [None]. *)
Definition fmt (v : option str) : str :=
  match v with
  | Some s => s
  | None => lit "None"
  end.

(** [str(n)] for a non-negative integer. *)
Definition str_of_N (n : N) : str :=
  lit (NilEmpty.string_of_uint (N.to_uint n)).

End Py.
Import Py.

(** ** [compute_id] *)

(** The upper-case hexadecimal digit of format code [X]. *)
Definition hex_char (d : digits) : N :=
  match d with
  | d0 => chr "0" | d1 => chr "1" | d2 => chr "2" | d3 => chr "3"
  | d4 => chr "4" | d5 => chr "5" | d6 => chr "6" | d7 => chr "7"
  | d8 => chr "8" | d9 => chr "9" | da => chr "A" | db => chr "B"
  | dc => chr "C" | dd => chr "D" | de => chr "E" | df => chr "F"
  end.

(** [format(n, "X")]: the digits of [n], most significant first, no padding. *)
Definition format_X (n : N) : str := hex_char <$> to_list (N.to_hex_uint n).

(** ["{0:0{1}X}".format(n, 4)]: zero-filled on the left up to width four,
    wider when [n] needs more digits. *)
Definition format_04X (n : N) : str :=
  let ds := format_X n in
  replicate (4 - length ds) (chr "0") ++ ds.

(** One token of the fingerprint: ["u"] and the formatted code point. *)
Definition token (c : N) : str := chr "u" :: format_04X c.

(** ["".join(["u{0:0{1}X}".format(ord(char), 4) for char in text])]. *)
Definition unicode_repr (text : str) : str := concat (token <$> text).

Section ComputeId.
(** [unidecode.unidecode], and [clldutils.misc.slug], whose last statement
    before [return] asserts that only letters, digits and spaces are left:
    [None] where that assertion fails. *)
Variable unidecode : str -> str.
Variable slug : str -> option str.

Definition compute_id (text : str) : result str :=
  let unicode_repr := unicode_repr text in
  label <- asserting (slug (unidecode text)) ;;
  Ok (label ++ lit "_" ++ unicode_repr).
End ComputeId.

(** ** [normalize_grapheme] *)

Section Normalize.
(** [unicodedata.normalize("NFC", _)]. *)
Variable nfc : str -> str.

Definition normalize_grapheme (text : str) : result str :=
  let text := nfc text in
  b <- bounded_by (chr "(") (chr ")") text ;;
  let text := if b then strip_ends text else text in
  b <- bounded_by (chr "[") (chr "]") text ;;
  let text := if b then strip_ends text else text in
  Ok text.
End Normalize.

(** ** The readers *)

(** The record every reader appends.  [inv_id] is [None] while a row-inheritance
    file has not given an inventory yet; the key ["marginal"] is absent
    ([None]) except in the entries of the UPSID reader, and holds the text of a
    Python boolean. *)
Record Entry : Type := mkEntry {
  lang_id : str;
  source : str;
  inv_id : option str;
  segment_raw : str;
  marginal : option str;
}.

(** A row of [csv.DictReader]: a dict from the field names to the cells, a
    missing cell of a short row being [None].  A file read with it is given by
    [reader.fieldnames], which is [None] when the file has no first line, and
    by its rows. *)
Abbreviation Row := (gmap str (option str)).

(** *** [read_phoible_common] *)

(** The choice of the raw segment column from [reader.fieldnames]. *)
Definition segment_field_of (fieldnames : list str) : str :=
  if bool_decide (lit "PhonemeOld" ∈ fieldnames) then lit "PhonemeOld"
  else if bool_decide (lit "Segment" ∈ fieldnames) then lit "Segment"
  else lit "Phoneme".

(** The local variables of the loop over the rows. *)
Record common_state : Type := mkCommon {
  curr_inventory_id : option str;
  curr_lang_name : option str;
  entries : list Entry;
}.

Definition common_row (source_name segment_field : str)
    (st : common_state) (row : Row) : result common_state :=
  inventory <- getitem row (lit "InventoryID") ;;
  let curr_inventory_id :=
    if truthy inventory then inventory else curr_inventory_id st in
  language <- getitem row (lit "LanguageName") ;;
  let curr_lang_name :=
    if truthy language then language else curr_lang_name st in
  segment_raw <- getitem row segment_field ;;
  let entries :=
    match segment_raw with
    | Some (c :: seg) =>
        entries st ++
          [ {| lang_id := source_name ++ lit "_" ++ fmt curr_lang_name;
               source := lit "PHOIBLE_" ++ source_name;
               inv_id := curr_inventory_id;
               segment_raw := c :: seg;
               marginal := None |} ]
    | _ => entries st
    end in
  Ok (mkCommon curr_inventory_id curr_lang_name entries).

(** On a file without a first line the test ["PhonemeOld" in
    reader.fieldnames] is made on [None]. *)
Definition read_phoible_common (fieldnames : option (list str)) (rows : list Row)
    (source_name : str) : result (list Entry) :=
  match fieldnames with
  | None => Raise TypeError
  | Some fieldnames =>
      let segment_field := segment_field_of fieldnames in
      st <- for_each (common_row source_name segment_field) rows
              (mkCommon None None []) ;;
      Ok (entries st)
  end.

(** *** [read_phoible_upsid]: the loop over [UPSID_Segments.tsv] *)

(** [str(x != "0")]. *)
Definition str_ne_zero (cell : option str) : str :=
  if bool_decide (cell = Some (lit "0")) then lit "False" else lit "True".

Section Upsid.
(** The tables joined before the loop: language number to its ["name"] and
    ["id"], and character code to IPA string. *)
Variable lang_num2name : gmap str (gmap str str).
Variable segments : gmap str str.

(** A cell used as a key: [None] is a key of neither table. *)
Definition lookup_cell {V : Type} (d : gmap str V) (cell : option str) : result V :=
  match cell with
  | Some k => getitem d k
  | None => Raise KeyError
  end.

Definition upsid_row (acc : list Entry) (row : Row) : result (list Entry) :=
  num <- getitem row (lit "upsidLangNum") ;;
  lang <- lookup_cell lang_num2name num ;;
  inv_id <- getitem lang (lit "id") ;;
  name <- getitem lang (lit "name") ;;
  ccid <- getitem row (lit "upsidCCID") ;;
  ipa <- lookup_cell segments ccid ;;
  anomalous <- getitem row (lit "anomalous") ;;
  Ok (acc ++
        [ {| lang_id := lit "UPSID_" ++ name;
             source := lit "PHOIBLE_UPSID";
             inv_id := Some inv_id;
             segment_raw := ipa;
             marginal := Some (str_ne_zero anomalous) |} ]).

Definition read_upsid_segments (rows : list Row) : result (list Entry) :=
  for_each upsid_row rows [].
End Upsid.

(** *** [read_phoible_upsid]: the tables *)

(** A row of [csv.DictReader] with a cell in every column. *)
Abbreviation FullRow := (gmap str str).

(** The two dicts of dicts, by language name and by language number. *)
Abbreviation UpsidTables := (gmap str (gmap str str) * gmap str (gmap str str))%type.

(** The body of the loop over [UPSID_Languages.tsv]. *)
Definition upsid_language (tables : UpsidTables) (row : FullRow) : result UpsidTables :=
  num <- getitem row (lit "LangNum") ;;
  name <- getitem row (lit "LangName") ;;
  let lang_name2num := <[name := {[ lit "num" := num ]}]> tables.1 in
  let lang_num2name := <[num := {[ lit "name" := name ]}]> tables.2 in
  Ok (lang_name2num, lang_num2name).

(** The body of the loop over [UPSID_LanguageCodes.tsv]: the inner dicts get
    the key ["id"]. *)
Definition upsid_code (tables : UpsidTables) (row : FullRow) : result UpsidTables :=
  inventory_id <- getitem row (lit "InventoryID") ;;
  name <- getitem row (lit "LanguageName") ;;
  by_name <- getitem tables.1 name ;;
  let lang_name2num := <[name := <[lit "id" := inventory_id]> by_name]> tables.1 in
  num <- getitem row (lit "upsidLangNum") ;;
  by_num <- getitem tables.2 num ;;
  let lang_num2name := <[num := <[lit "id" := inventory_id]> by_num]> tables.2 in
  Ok (lang_name2num, lang_num2name).

Definition build_upsid_tables (languages codes : list FullRow) : result UpsidTables :=
  tables <- for_each upsid_language languages (∅, ∅) ;;
  for_each upsid_code codes tables.

(** *** [read_phoible_ra]: the loop over the data rows *)

(** [{field: value for field, value in zip(fields, row)}]: the pairs are
    entered from left to right, so of two columns with one name the right one
    stays; a column beyond the width of the row gets no key. *)
Definition dict_zip (fields row : list str) : gmap str str :=
  foldl (fun d kv => <[kv.1 := kv.2]> d) ∅ (zip fields row).

(** The columns that are not segments. *)
Definition ra_metadata : list str :=
  [lit "InventoryID"; lit "#"; lit "Language Name"; lit "Language Code"].

Definition ra_entry (inventory_id language_name segment_raw : str) : Entry :=
  {| lang_id := lit "RA_" ++ language_name;
     source := lit "PHOIBLE_RA";
     inv_id := Some inventory_id;
     segment_raw := segment_raw;
     marginal := None |}.

(** The body of [for segment_raw in fields]. *)
Definition ra_cell (data : gmap str str) (inventory_id language_name : str)
    (acc : list Entry) (segment_raw : str) : result (list Entry) :=
  if bool_decide (segment_raw ∈ ra_metadata) then Ok acc
  else
    cell <- getitem data segment_raw ;;
    if bool_decide (cell = lit "1")
    then Ok (acc ++ [ra_entry inventory_id language_name segment_raw])
    else Ok acc.

(** The body of [for row in reader]. *)
Definition ra_row (fields : list str) (acc : list Entry) (row : list str)
    : result (list Entry) :=
  let data := dict_zip fields row in
  inventory_id <- getitem data (lit "InventoryID") ;;
  language_name <- getitem data (lit "Language Name") ;;
  for_each (ra_cell data inventory_id language_name) fields acc.

(** [fields] is the third row of the file, [rows] are the rows after it, each
    the list of its cells as [csv.reader] gives them. *)
Definition read_phoible_ra_rows (fields : list str) (rows : list (list str))
    : result (list Entry) :=
  for_each (ra_row fields) rows [].

(** *** [read_phoible_ra] *)

(** [reader] holds the rows of the file: two are skipped, the third is the
    header. *)
Definition read_phoible_ra (reader : list (list str)) : result (list Entry) :=
  skipped <- next reader ;;
  skipped <- next skipped.2 ;;
  header <- next skipped.2 ;;
  let fields := header.1 in
  read_phoible_ra_rows fields header.2.

(** *** [read_phoible_saphon] *)

(** [l[17:-37]]. *)
Definition slice_17_m37 {A : Type} (l : list A) : list A :=
  drop 17 (take (length l - 37) l).

Definition saphon_cell (row : Row) (acc : list Entry) (segment_raw : str)
    : result (list Entry) :=
  cell <- getitem row segment_raw ;;
  if bool_decide (cell = Some (lit "1")) then
    name <- getitem row (lit "Name") ;;
    inventory_id <- getitem row (lit "InventoryID") ;;
    Ok (acc ++
          [ {| lang_id := lit "SAPHON_" ++ fmt name;
               source := lit "PHOIBLE_SAPHON";
               inv_id := inventory_id;
               segment_raw := segment_raw;
               marginal := None |} ])
  else Ok acc.

(** On a file without a first line the slice is taken of [None]. *)
Definition read_phoible_saphon (fieldnames : option (list str)) (rows : list Row)
    : result (list Entry) :=
  match fieldnames with
  | None => Raise TypeError
  | Some fieldnames =>
      let segments := slice_17_m37 fieldnames in
      for_each (fun acc row => for_each (saphon_cell row) segments acc) rows []
  end.

(** ** [Dataset.cmd_makecldf]: the aggregation *)

(** What [clts.bipa[normalized]] returns: an instance of
    [models.UnknownSound], or a sound with its [str] and its [name]. *)
Inductive Sound : Type :=
| UnknownSound
| KnownSound (grapheme name : str).

(** A cell of an output row: a string, or the list of the [Source] column. *)
Inductive field : Type :=
| Str (s : str)
| StrList (l : list str).

#[global] Instance field_eq_dec : EqDecision field.
Proof. solve_decision. Defined.

(** The columns [add_columns] adds to the [ValueTable]. *)
Definition value_table_columns : list str :=
  [lit "Marginal"; lit "Catalog"; lit "Contribution_ID"].

(** [InventoryID-Bibtex.csv] into the [defaultdict(list)]: one
    (InventoryID, BibtexKey) pair per row, for a file that has the two
    columns and a cell for each of them in every row. *)
Definition build_source_map (rows : list (str * str)) : gmap str (list str) :=
  foldl (fun m row => <[row.1 := default [] (m !! row.1) ++ [row.2]]> m) ∅ rows.

(** [d[k]] on a [defaultdict(list)]: a missing key is inserted with []. *)
Definition defaultdict_getitem (d : gmap str (list str)) (k : str)
    : list str * gmap str (list str) :=
  match d !! k with
  | Some v => (v, d)
  | None => ([], <[k := []]> d)
  end.

(** The marginality marks of the raw string (the [if]/[elif]/[else]). *)
Definition mark_marginal (entry : Entry) : result Entry :=
  angle <- bounded_by (chr "<") (chr ">") (segment_raw entry) ;;
  if angle then
    Ok {| lang_id := lang_id entry; source := source entry; inv_id := inv_id entry;
          segment_raw := strip_ends (segment_raw entry);
          marginal := Some (lit "True") |}
  else
    quoted <- bounded_by (chr "'") (chr "'") (segment_raw entry) ;;
    if quoted then
      Ok {| lang_id := lang_id entry; source := source entry; inv_id := inv_id entry;
            segment_raw := strip_ends (segment_raw entry);
            marginal := Some (lit "True") |}
    else
      Ok {| lang_id := lang_id entry; source := source entry; inv_id := inv_id entry;
            segment_raw := segment_raw entry;
            marginal := Some (lit "False") |}.

(** The first phoneme of an allophone group. *)
Definition first_allophone (entry : Entry) : Entry :=
  if (3 <=? length (segment_raw entry))%nat && contains (chr "|") (segment_raw entry) then
    {| lang_id := lang_id entry; source := source entry; inv_id := inv_id entry;
       segment_raw := split_head (chr "|") (segment_raw entry);
       marginal := marginal entry |}
  else entry.

(** A tuple of [parameters]: (par_id, normalized, bipa_grapheme, desc). *)
Abbreviation ParameterTuple := (str * str * str * str)%type.

(** A dict of [values], and a dict of [segments]. *)
Abbreviation Value := (gmap str field).
Abbreviation Segment := (gmap str str).

Record agg_state : Type := mkAgg {
  parameters : list ParameterTuple;
  values : list Value;
  counter : N;
  source_map : gmap str (list str);
}.

(** The order in which a [set] built from a list is iterated.  It depends on
    the hashes of the elements and on the insertions, and is not specified;
    the iteration gives every element of the list, once. *)
Record set_iteration (A : Type) : Type := mkSetIteration {
  iter_set : list A -> list A;
  iter_set_NoDup : forall l, NoDup (iter_set l);
  iter_set_elem_of : forall l x, x ∈ iter_set l <-> x ∈ l;
}.
Arguments mkSetIteration {A}.
Arguments iter_set {A}.
Arguments iter_set_NoDup {A}.
Arguments iter_set_elem_of {A}.

Definition par_id_of (p : ParameterTuple) : str := p.1.1.1.

(** The dict appended to [values]; [catalog] is [slug(entry["source"])]. *)
Definition value_row (counter : N) (language_id par_id : str) (entry : Entry)
    (inventory : str) (citations : list str) (catalog : str) : Value :=
  list_to_map
    [ (lit "ID", Str (str_of_N counter));
      (lit "Language_ID", Str language_id);
      (lit "Parameter_ID", Str par_id);
      (lit "Value", Str (segment_raw entry));
      (lit "Contribution_ID", Str inventory);
      (lit "Source", StrList citations);
      (lit "Catalog", Str catalog) ].

(** The dicts built from [set(parameters)]. *)
Definition segment_of (p : ParameterTuple) : Segment :=
  let '(id, normalized, bipa_grapheme, desc) := p in
  list_to_map
    [ (lit "ID", id); (lit "Name", normalized);
      (lit "BIPA", bipa_grapheme); (lit "Description", desc) ].

Section Aggregation.
Variable nfc : str -> str.
Variable unidecode : str -> str.
Variable slug : str -> option str.
(** [clts.bipa.__getitem__]. *)
Variable bipa : str -> Sound.
(** Inventory to language, read from [etc/languages.csv]. *)
Variable phoible_lang : gmap str str.
(** The iteration order of [set(parameters)]. *)
Variable set_order : set_iteration ParameterTuple.

(** From the normalized grapheme to the tuple of [parameters]. *)
Definition canonicalize (normalized : str) : result ParameterTuple :=
  match bipa normalized with
  | UnknownSound =>
      id <- compute_id unidecode slug normalized ;;
      Ok (lit "UNK_" ++ id, normalized, [], [])
  | KnownSound grapheme name =>
      id <- compute_id unidecode slug normalized ;;
      Ok (lit "BIPA_" ++ id, normalized, grapheme, name)
  end.

(** The body of [for entry in data]: the dict of the row is built key by key,
    so the language is looked up before the source is slugged. *)
Definition aggregate_entry (st : agg_state) (entry : Entry) : result agg_state :=
  entry <- mark_marginal entry ;;
  let entry := first_allophone entry in
  normalized <- normalize_grapheme nfc (segment_raw entry) ;;
  parameter <- canonicalize normalized ;;
  language_id <- lookup_cell phoible_lang (inv_id entry) ;;
  let inventory := default [] (inv_id entry) in
  let '(citations, source_map) := defaultdict_getitem (source_map st) inventory in
  catalog <- asserting (slug (source entry)) ;;
  let value :=
    value_row (counter st) language_id (par_id_of parameter) entry inventory citations
      catalog in
  Ok {| parameters := parameters st ++ [parameter];
        values := values st ++ [value];
        counter := counter st + 1;
        source_map := source_map |}.

Definition build_segments (parameters : list ParameterTuple) : list Segment :=
  segment_of <$> iter_set set_order parameters.

(** The loop and the segment table: what is handed to the writer. *)
Definition aggregate (source_map : gmap str (list str)) (data : list Entry)
    : result (list Value * list Segment) :=
  st <- for_each aggregate_entry data (mkAgg [] [] 1 source_map) ;;
  Ok (values st, build_segments (parameters st)).
End Aggregation.

(** ** Observations used to state the properties *)

(** The part of an identifier after its last underscore: the fingerprint half
    of a [compute_id] (the fingerprint itself holds no underscore). *)
Definition fingerprint_half (id : str) : str :=
  rev (split_head (chr "_") (rev id)).

Definition normalized_of (p : ParameterTuple) : str := p.1.1.2.

(** An entry with another content under the key ["marginal"]. *)
Definition with_marginal (flag : option str) (entry : Entry) : Entry :=
  {| lang_id := lang_id entry; source := source entry; inv_id := inv_id entry;
     segment_raw := segment_raw entry; marginal := flag |}.

(** A text that [normalize_grapheme] would strip again. *)
Definition enclosed (text : str) : Prop :=
  bounded_by (chr "(") (chr ")") text = Ok true \/
  bounded_by (chr "[") (chr "]") text = Ok true.

(** Text of ASCII characters only, which every normalization form leaves as
    it is. *)
Definition ascii_text (text : str) : Prop := Forall (fun c => (c < 128)%N) text.

Definition fixes_ascii (nfc : str -> str) : Prop :=
  forall text, ascii_text text -> nfc text = text.

(** The rows of a run: seven keys each, and under ["Source"] what the
    bibliography read from the file holds for the inventory of the row. *)
Definition rows_follow (bibliography : gmap str (list str)) (st : agg_state) : Prop :=
  (forall k, default [] (source_map st !! k) = default [] (bibliography !! k)) /\
  (forall v, v ∈ values st ->
     dom v = list_to_set
               [ lit "ID"; lit "Language_ID"; lit "Parameter_ID"; lit "Value";
                 lit "Contribution_ID"; lit "Source"; lit "Catalog" ] /\
     v !! lit "Marginal" = None /\
     forall inventory, v !! lit "Contribution_ID" = Some (Str inventory) ->
       v !! lit "Source" = Some (StrList (default [] (bibliography !! inventory)))).

(** *** The row-inheritance rule in the words of the specification *)

(** The cells of one column; a row without the column counts as empty. *)
Definition column (key : str) (rows : list Row) : list (option str) :=
  (fun row : Row => default None (row !! key)) <$> rows.

(** The last non-empty cell of a column, [None] when every cell is empty. *)
Definition carried (cells : list (option str)) : option str :=
  mjoin (last (filter (fun cell => truthy cell) cells)).

(** The non-empty prefixes of the rows, shortest first: each row together with
    the rows before it. *)
Fixpoint prefixes (rows : list Row) : list (list Row) :=
  match rows with
  | [] => []
  | row :: rows' => [row] :: ((fun p => row :: p) <$> prefixes rows')
  end.

(** The entry for the last row of a prefix: none when its segment cell is
    empty, else one that carries the last non-empty inventory id and language
    name seen so far. *)
Definition carried_entry (source_name segment_field : str) (seen : list Row)
    : option Entry :=
  row ← last seen;
  match default None (row !! segment_field) with
  | Some (c :: seg) =>
      Some {| lang_id := source_name ++ lit "_" ++
                           fmt (carried (column (lit "LanguageName") seen));
              source := lit "PHOIBLE_" ++ source_name;
              inv_id := carried (column (lit "InventoryID") seen);
              segment_raw := c :: seg;
              marginal := None |}
  | _ => None
  end.

Definition carried_entries (source_name segment_field : str) (rows : list Row)
    : list Entry :=
  omap (carried_entry source_name segment_field) (prefixes rows).

(** The state of the loop after the rows [seen]. *)
Definition common_after (source_name segment_field : str) (seen : list Row)
    : common_state :=
  {| curr_inventory_id := carried (column (lit "InventoryID") seen);
     curr_lang_name := carried (column (lit "LanguageName") seen);
     entries := carried_entries source_name segment_field seen |}.

(** *** Reading a fingerprint back *)

Definition unhex_char (c : N) : digits :=
  if N.eqb c (chr "1") then d1 else if N.eqb c (chr "2") then d2
  else if N.eqb c (chr "3") then d3 else if N.eqb c (chr "4") then d4
  else if N.eqb c (chr "5") then d5 else if N.eqb c (chr "6") then d6
  else if N.eqb c (chr "7") then d7 else if N.eqb c (chr "8") then d8
  else if N.eqb c (chr "9") then d9 else if N.eqb c (chr "A") then da
  else if N.eqb c (chr "B") then db else if N.eqb c (chr "C") then dc
  else if N.eqb c (chr "D") then dd else if N.eqb c (chr "E") then de
  else if N.eqb c (chr "F") then df else d0.

(** Reading a formatted code point back. *)
Definition parse_hex (s : str) : N := N.of_hex_uint (of_list (unhex_char <$> s)).

(** A fingerprint is empty or starts with the token mark. *)
Definition starts_token (s : str) : Prop := s = [] \/ exists s', s = chr "u" :: s'.

(** [s.split(sep)] for a one-character separator: the pieces between the
    separators, one more than there are separators. *)
Fixpoint split (sep : N) (s : str) : list str :=
  match s with
  | [] => [[]]
  | c :: s' =>
      if N.eqb c sep then [] :: split sep s'
      else match split sep s' with
           | piece :: pieces => (c :: piece) :: pieces
           | [] => [[c]]
           end
  end.

(** The code points of a fingerprint: the tokens are what follows each mark. *)
Definition decode_repr (fingerprint : str) : str :=
  parse_hex <$> tail (split (chr "u") fingerprint).

(** The text an identifier was computed from. *)
Definition decode_id (id : str) : str := decode_repr (fingerprint_half id).

(** A row in which the row-inheritance reader finds the three keys it reads. *)
Definition has_columns (segment_field : str) (row : Row) : Prop :=
  is_Some (row !! lit "InventoryID") /\ is_Some (row !! lit "LanguageName") /\
  is_Some (row !! segment_field).

(** *** A run of the loop, entry by entry *)

(** What a turn of the loop takes from its entry when it does not raise: the
    entry after the marks and the allophone rule, the normalized text, the
    inventory and its language. *)
Record Turn : Type := mkTurn {
  turn_entry : Entry;
  turn_text : str;
  turn_parameter : ParameterTuple;
  turn_inventory : str;
  turn_language : str;
  turn_catalog : str;
}.

(** The turn of an entry: [None] when one of its steps raises. *)
Definition turn_of (nfc unidecode : str -> str) (slug : str -> option str)
    (bipa : str -> Sound) (phoible_lang : gmap str str) (entry : Entry)
    : option Turn :=
  match mark_marginal entry with
  | Ok marked =>
      match normalize_grapheme nfc (segment_raw (first_allophone marked)) with
      | Ok normalized =>
          match canonicalize unidecode slug bipa normalized with
          | Ok parameter =>
              inventory ← inv_id entry;
              language_id ← phoible_lang !! inventory;
              catalog ← slug (source entry);
              Some (mkTurn (first_allophone marked) normalized parameter inventory
                      language_id catalog)
          | Raise _ => None
          end
      | Raise _ => None
      end
  | Raise _ => None
  end.

(** The row of the turn at position [k] of a run that starts with the counter
    at [first] and with the given bibliography. *)
Definition turn_row (bibliography : gmap str (list str)) (first : N) (k : nat)
    (t : Turn) : Value :=
  value_row (first + N.of_nat k) (turn_language t) (par_id_of (turn_parameter t))
    (turn_entry t) (turn_inventory t)
    (default [] (bibliography !! turn_inventory t)) (turn_catalog t).

(** *** [read_phoible_upsid]: the character codes *)

(** The tabulator. *)
Definition tab : N := 9.

(** The loop over [UPSID_CharCodes.tsv], read line by line and split by hand:
    [tsvfile] holds the lines of the file, each with its line end, as the
    iteration over the file gives them; the first one is the header. *)
Definition upsid_charcode (fields : list str) (segments : gmap str str) (line : str)
    : result (gmap str str) :=
  let values := split tab line in
  let data := dict_zip fields values in
  ipa <- getitem data (lit "IPA") ;;
  ccid <- getitem data (lit "CCID") ;;
  Ok (<[ccid := ipa]> segments).

Definition build_upsid_segments (tsvfile : list str) : result (gmap str str) :=
  header <- next tsvfile ;;
  let fields := split tab header.1 in
  for_each (upsid_charcode fields) header.2 ∅.

(** *** [read_phoible_upsid] *)

Definition read_phoible_upsid (languages codes : list FullRow) (tsvfile : list str)
    (rows : list Row) : result (list Entry) :=
  tables <- build_upsid_tables languages codes ;;
  segments <- build_upsid_segments tsvfile ;;
  read_upsid_segments tables.2 segments rows.

(** The entry of a row of [UPSID_Segments.tsv], when every lookup finds its
    key. *)
Definition upsid_row_entry (lang_num2name : gmap str (gmap str str))
    (segments : gmap str str) (row : Row) : option Entry :=
  num ← row !! lit "upsidLangNum";
  lang ← num ≫= (lang_num2name !!.);
  inv_id ← lang !! lit "id";
  name ← lang !! lit "name";
  ccid ← row !! lit "upsidCCID";
  ipa ← ccid ≫= (segments !!.);
  anomalous ← row !! lit "anomalous";
  Some {| lang_id := lit "UPSID_" ++ name;
          source := lit "PHOIBLE_UPSID";
          inv_id := Some inv_id;
          segment_raw := ipa;
          marginal := Some (str_ne_zero anomalous) |}.

(** The rows of a language file that give a cell for a number. *)
Definition rows_with (key value : str) (rows : list FullRow) : list FullRow :=
  filter (fun row : FullRow => row !! key = Some value) rows.



(** A name, or a number, of some row of the language file. *)
Definition upsid_has (key : str) (languages : list FullRow) (value : str) : Prop :=
  exists row, row ∈ languages /\ row !! key = Some value.


(** A header line and a data line of the character-code file, with the IPA
    column last and with a column after it. *)
Definition sample_charcode_header_last : str :=
  lit "CCID" ++ [tab] ++ lit "IPA" ++ [10%N].

Definition sample_charcode_header : str :=
  lit "CCID" ++ [tab] ++ lit "IPA" ++ [tab] ++ lit "Note" ++ [10%N].

Definition sample_charcode_line : str :=
  lit "c1" ++ [tab] ++ lit "p" ++ [tab] ++ lit "n" ++ [10%N].

(** A language file with two languages and a code file that names the first
    of them twice. *)
Definition sample_languages : list FullRow :=
  [ list_to_map [ (lit "LangNum", lit "7"); (lit "LangName", lit "L7") ];
    list_to_map [ (lit "LangNum", lit "8"); (lit "LangName", lit "L8") ] ].

Definition sample_codes : list FullRow :=
  [ list_to_map [ (lit "LanguageName", lit "L7"); (lit "upsidLangNum", lit "7");
                  (lit "InventoryID", lit "A") ];
    list_to_map [ (lit "LanguageName", lit "L7"); (lit "upsidLangNum", lit "7");
                  (lit "InventoryID", lit "B") ] ].

(** *** The matrix readers, row by row *)

(** A row of the RA file in which the reader finds every key it reads. *)
Definition ra_complete (fields row : list str) : Prop :=
  is_Some (dict_zip fields row !! lit "InventoryID") /\
  is_Some (dict_zip fields row !! lit "Language Name") /\
  Forall (fun f => f ∉ ra_metadata -> is_Some (dict_zip fields row !! f)) fields.

(** The entries of such a row: one per segment column whose cell is ["1"], in
    the order of the header. *)
Definition ra_row_entries (fields row : list str) : list Entry :=
  let data := dict_zip fields row in
  omap (fun f =>
          if bool_decide (f ∈ ra_metadata) then None
          else if bool_decide (data !! f = Some (lit "1"))
               then Some (ra_entry (default [] (data !! lit "InventoryID"))
                            (default [] (data !! lit "Language Name")) f)
               else None) fields.



(** The header and one row of the binary matrix of the specification. *)
Definition sample_ra_fields : list str :=
  [lit "InventoryID"; lit "#"; lit "Language Name"; lit "Language Code"; lit "p"; lit "t"].

Definition sample_ra_row : list str :=
  [lit "R1"; lit "1"; lit "L1"; lit "l1"; lit "1"; []].

(** ** [read_raw_phoible_data] *)

(** What the readers find under [raw_dir / "phoible-dev" / "raw-data"]: a file
    read with [csv.DictReader] is its field names ([None] for a file without
    a first line) and its rows, or its rows alone where the reader does not
    look at the field names; the RA file is the rows [csv.reader] gives; the
    character-code file is its lines. *)
Record RawData : Type := mkRawData {
  AA_inventories : option (list str) * list Row;
  EA_inventories : option (list str) * list Row;
  ER_inventories : option (list str) * list Row;
  gm_afr_inventories : option (list str) * list Row;
  gm_sea_inventories : option (list str) * list Row;
  phoible_inventories : option (list str) * list Row;
  UZ_inventories : option (list str) * list Row;
  Ramaswami1999 : list (list str);
  saphon20121031 : option (list str) * list Row;
  UPSID_Languages : list FullRow;
  UPSID_LanguageCodes : list FullRow;
  UPSID_CharCodes : list str;
  UPSID_Segments : list Row;
}.

Definition read_raw_phoible_data (raw : RawData) : result (list Entry) :=
  let data := [] in
  es <- read_phoible_common (AA_inventories raw).1 (AA_inventories raw).2 (lit "AA") ;;
  let data := data ++ es in
  es <- read_phoible_common (EA_inventories raw).1 (EA_inventories raw).2 (lit "EA") ;;
  let data := data ++ es in
  es <- read_phoible_common (ER_inventories raw).1 (ER_inventories raw).2 (lit "ER") ;;
  let data := data ++ es in
  es <- read_phoible_common (gm_afr_inventories raw).1 (gm_afr_inventories raw).2 (lit "GM") ;;
  let data := data ++ es in
  es <- read_phoible_common (gm_sea_inventories raw).1 (gm_sea_inventories raw).2 (lit "GM") ;;
  let data := data ++ es in
  es <- read_phoible_common (phoible_inventories raw).1 (phoible_inventories raw).2 (lit "PH") ;;
  let data := data ++ es in
  es <- read_phoible_common (UZ_inventories raw).1 (UZ_inventories raw).2 (lit "UZ") ;;
  let data := data ++ es in
  es <- read_phoible_ra (Ramaswami1999 raw) ;;
  let data := data ++ es in
  es <- read_phoible_saphon (saphon20121031 raw).1 (saphon20121031 raw).2 ;;
  let data := data ++ es in
  es <- read_phoible_upsid (UPSID_Languages raw) (UPSID_LanguageCodes raw)
          (UPSID_CharCodes raw) (UPSID_Segments raw) ;;
  let data := data ++ es in
  Ok data.

(** ** [Dataset.cmd_makecldf]: the languages *)

(** What the script reads of a languoid of Glottolog.  An ancestor in
    [lineage] is its name and its glottocode (the script reads no more of it),
    [macroareas] are the names of the macroareas; the coordinates are numbers
    the script only passes on. *)
Module Glottolog.
Record Languoid (coord : Type) : Type := mkLanguoid {
  glottocode : str;
  lineage : list (str * str);
  iso_code : option str;
  latitude : option coord;
  longitude : option coord;
  macroareas : list str;
  name : str;
}.
Arguments mkLanguoid {coord}.
Arguments glottocode {coord}.
Arguments lineage {coord}.
Arguments iso_code {coord}.
Arguments latitude {coord}.
Arguments longitude {coord}.
Arguments macroareas {coord}.
Arguments name {coord}.
End Glottolog.

(** A value of a dict of the language table. *)
Inductive lang_field (coord : Type) : Type :=
  | LStr (s : str)
  | LNum (c : coord)
  | LNone.
Arguments LStr {coord}.
Arguments LNum {coord}.
Arguments LNone {coord}.

Definition str_or_None {coord : Type} (v : option str) : lang_field coord :=
  match v with Some s => LStr s | None => LNone end.

Definition num_or_None {coord : Type} (v : option coord) : lang_field coord :=
  match v with Some c => LNum c | None => LNone end.

(** The first loop over [etc/languages.csv], whose rows are dicts with [None]
    for the missing cells of a short row: the inventory of a row is its ID up
    to the first underscore. *)
Definition phoible_lang_row (st : gmap str str * gset str) (row : Row)
    : result (gmap str str * gset str) :=
  id <- getitem row (lit "ID") ;;
  id <- str_method id ;;
  let inv_id := split_head (chr "_") id in
  let phoible_lang := <[inv_id := id]> st.1 in
  glottocode <- getitem row (lit "Glottocode") ;;
  let glottocodes :=
    match glottocode with
    | Some (c :: g) => {[ c :: g ]} ∪ st.2
    | _ => st.2
    end in
  Ok (phoible_lang, glottocodes).

Definition build_phoible_lang (rows : list Row) : result (gmap str str * gset str) :=
  for_each phoible_lang_row rows (∅, ∅).

Section Languages.
Variable coord : Type.

Abbreviation Languoid := (Glottolog.Languoid coord).
Abbreviation LangDict := (gmap str (lang_field coord)).

(** The cache of the languoids whose glottocode some row names. *)
Definition cache_languoids (glottocodes : gset str) (glottolog : list Languoid)
    : gmap str Languoid :=
  foldl (fun languoids languoid =>
           if bool_decide (Glottolog.glottocode languoid ∈ glottocodes)
           then <[Glottolog.glottocode languoid := languoid]> languoids
           else languoids)
        ∅ glottolog.

(** [lang_dict.update({...})] for a row with a glottocode. *)
Definition lang_dict_update (glottocode : str) (lang : Languoid) (lang_dict : LangDict)
    : LangDict :=
  <[lit "Glottolog_Name" := LStr (Glottolog.name lang)]>
  (<[lit "Macroarea" := str_or_None (head (Glottolog.macroareas lang))]>
  (<[lit "Longitude" := num_or_None (Glottolog.longitude lang)]>
  (<[lit "Latitude" := num_or_None (Glottolog.latitude lang)]>
  (<[lit "ISO639P3code" := str_or_None (Glottolog.iso_code lang)]>
  (<[lit "Glottocode" := LStr glottocode]>
  (<[lit "Family_Name" := str_or_None (fst <$> head (Glottolog.lineage lang))]>
  (<[lit "Family_Glottocode" := str_or_None (snd <$> head (Glottolog.lineage lang))]>
   lang_dict))))))).

(** The body of the second loop over [etc/languages.csv]. *)
Definition languages_row (languoids : gmap str Languoid) (languages : list LangDict)
    (row : Row) : result (list LangDict) :=
  id <- getitem row (lit "ID") ;;
  name <- getitem row (lit "Name") ;;
  let lang_dict : LangDict :=
    <[lit "Name" := str_or_None name]> {[ lit "ID" := str_or_None id ]} in
  glottocode <- getitem row (lit "Glottocode") ;;
  match glottocode with
  | Some (c :: g) =>
      lang <- getitem languoids (c :: g) ;;
      Ok (languages ++ [lang_dict_update (c :: g) lang lang_dict])
  | _ => Ok (languages ++ [lang_dict])
  end.

Definition build_languages (glottocodes : gset str) (glottolog : list Languoid)
    (rows : list Row) : result (list LangDict) :=
  let languoids := cache_languoids glottocodes glottolog in
  for_each (languages_row languoids) rows [].

(** ** [Dataset.cmd_makecldf] *)

Section MakeCldf.
Variable nfc : str -> str.
Variable unidecode : str -> str.
Variable slug : str -> option str.
Variable bipa : str -> Sound.
Variable set_order : set_iteration ParameterTuple.

(** What the method hands to [args.writer.write]: the value table, the
    language table and the parameter table. *)
Definition cmd_makecldf (bibtex_rows : list (str * str)) (language_rows : list Row)
    (glottolog : list Languoid) (raw : RawData)
    : result (list Value * list LangDict * list Segment) :=
  let source_map := build_source_map bibtex_rows in
  mapping <- build_phoible_lang language_rows ;;
  let phoible_lang := mapping.1 in
  let glottocodes := mapping.2 in
  languages <- build_languages glottocodes glottolog language_rows ;;
  data <- read_raw_phoible_data raw ;;
  tables <- aggregate nfc unidecode slug bipa phoible_lang set_order source_map data ;;
  Ok (tables.1, languages, tables.2).
End MakeCldf.
End Languages.

Arguments cache_languoids {coord}.
Arguments lang_dict_update {coord}.
Arguments languages_row {coord}.
Arguments build_languages {coord}.
Arguments cmd_makecldf {coord}.

(** *** The entries of [read_raw_phoible_data] *)




(** *** The rows of [etc/languages.csv] *)

(** A row the first loop gets past: it has the key ["ID"] with a cell, and the
    key ["Glottocode"]. *)
Definition language_row_ok (row : Row) : Prop :=
  (exists id, row !! lit "ID" = Some (Some id)) /\ is_Some (row !! lit "Glottocode").

(** The IDs of the rows, in the order of the file. *)
Definition language_ids (rows : list Row) : list str :=
  omap (fun row : Row => mjoin (row !! lit "ID")) rows.

(** The inventory of a language ID: the text before its first underscore. *)
Definition inventory_of (id : str) : str := split_head (chr "_") id.

(** A glottocode that some languoid of Glottolog has. *)
Definition in_glottolog {coord : Type} (glottolog : list (Glottolog.Languoid coord))
    (glottocode : str) : Prop :=
  exists languoid, languoid ∈ glottolog /\ Glottolog.glottocode languoid = glottocode.

(** The glottocode of a row: none for a missing or empty cell. *)
Definition glottocode_of (row : Row) : option str :=
  match row !! lit "Glottocode" with
  | Some (Some (c :: g)) => Some (c :: g)
  | _ => None
  end.

(** A row the second loop gets past: it has the three keys it reads, and its
    glottocode, when it has one, is known. *)
Definition languages_row_ok (known : str -> Prop) (row : Row) : Prop :=
  is_Some (row !! lit "ID") /\ is_Some (row !! lit "Name") /\
  is_Some (row !! lit "Glottocode") /\
  forall glottocode, glottocode_of row = Some glottocode -> known glottocode.

(** The dict of such a row: for a row with a glottocode, the data of the last
    languoid of Glottolog with that glottocode. *)
Definition lang_dict_of {coord : Type} (glottolog : list (Glottolog.Languoid coord))
    (row : Row) : gmap str (lang_field coord) :=
  let lang_dict : gmap str (lang_field coord) :=
    <[lit "Name" := str_or_None (mjoin (row !! lit "Name"))]>
      {[ lit "ID" := str_or_None (mjoin (row !! lit "ID")) ]} in
  match glottocode_of row with
  | Some glottocode =>
      match last (filter (fun languoid => Glottolog.glottocode languoid = glottocode)
                    glottolog) with
      | Some lang => lang_dict_update glottocode lang lang_dict
      | None => lang_dict
      end
  | None => lang_dict
  end.

(** ** Stand-ins for the libraries, to run the model on ASCII text *)

(** NFC leaves ASCII text as it is. *)
Definition nfc_ascii (text : str) : str := text.

(** [unidecode] leaves ASCII text as it is. *)
Definition unidecode_ascii (text : str) : str := text.

(** [slug] on ASCII text.  The characters of [string.punctuation], the white
    space of [\s] and what is not ASCII are removed, capitals are lowered;
    the final assertion fails when something is left that is no letter and no
    digit, which is then a control character. *)
Definition slug_removes (c : N) : bool :=
  ((33 <=? c) && (c <=? 47) || (58 <=? c) && (c <=? 64) ||
   (91 <=? c) && (c <=? 96) || (123 <=? c) && (c <=? 126) ||
   (9 <=? c) && (c <=? 13) || (28 <=? c) && (c <=? 32) || (128 <=? c))%N.

Definition slug_keeps (c : N) : bool :=
  ((48 <=? c) && (c <=? 57) || (65 <=? c) && (c <=? 90) || (97 <=? c) && (c <=? 122))%N.

Definition slug_ascii (text : str) : option str :=
  let res :=
    omap (fun c : N =>
            if slug_removes c then None
            else if (65 <=? c)%N && (c <=? 90)%N then Some (c + 32)%N else Some c)
         text in
  if forallb slug_keeps res then Some res else None.

(** A set iterated in the order of the first insertions. *)
Definition set_order_sample : set_iteration ParameterTuple :=
  {| iter_set := remove_dups;
     iter_set_NoDup := NoDup_remove_dups;
     iter_set_elem_of := fun l x => elem_of_remove_dups l x |}.

(** A transcription system that knows three sounds. *)
Definition bipa_sample (text : str) : Sound :=
  if bool_decide (text = lit "a") then
    KnownSound (lit "a") (lit "unrounded open front vowel")
  else if bool_decide (text = lit "p") then
    KnownSound (lit "p") (lit "voiceless bilabial stop consonant")
  else if bool_decide (text = lit "t") then
    KnownSound (lit "t") (lit "voiceless alveolar stop consonant")
  else UnknownSound.

(** Two rows of a row-inheritance file, the second one sparse. *)
Definition sample_fieldnames : list str :=
  [lit "InventoryID"; lit "LanguageName"; lit "Phoneme"].

Definition sample_rows : list Row :=
  [ list_to_map [ (lit "InventoryID", Some (lit "A")); (lit "LanguageName", Some (lit "L1"));
                  (lit "Phoneme", Some (lit "p")) ];
    list_to_map [ (lit "InventoryID", Some []); (lit "LanguageName", Some []);
                  (lit "Phoneme", Some (lit "t")) ];
    list_to_map [ (lit "InventoryID", Some []); (lit "LanguageName", Some []);
                  (lit "Phoneme", Some []) ] ].

(** UPSID tables with one language and a parenthesised segment flagged as
    anomalous. *)
Definition sample_lang_num2name : gmap str (gmap str str) :=
  {[ lit "7" := list_to_map [ (lit "name", lit "L7"); (lit "id", lit "B") ] ]}.

Definition sample_segments : gmap str str := {[ lit "c1" := lit "(x)" ]}.

Definition sample_upsid_rows : list Row :=
  [ list_to_map [ (lit "upsidLangNum", Some (lit "7")); (lit "upsidCCID", Some (lit "c1"));
                  (lit "anomalous", Some (lit "1")) ] ].

Definition sample_phoible_lang : gmap str str :=
  list_to_map [ (lit "A", lit "A_l1"); (lit "B", lit "B_l7") ].

Definition sample_bibtex_rows : list (str * str) :=
  [ (lit "A", lit "key1"); (lit "A", lit "key2") ].

Definition sample_entry (source_name inventory raw : str) (flag : option str) : Entry :=
  {| lang_id := source_name ++ lit "_L"; source := lit "PHOIBLE_" ++ source_name;
     inv_id := Some inventory; segment_raw := raw; marginal := flag |}.

(** A run over the bibliography above, and entries of two sources: a marked
    and a plain one of the row-inheritance family, a flagged one of UPSID. *)
Definition sample_state : agg_state :=
  mkAgg [] [] 1 (build_source_map sample_bibtex_rows).

Definition sample_marked : Entry := sample_entry (lit "AA") (lit "A") (lit "<a>") None.
Definition sample_plain : Entry := sample_entry (lit "AA") (lit "A") (lit "a") None.
Definition sample_flagged : Entry :=
  sample_entry (lit "UPSID") (lit "B") (lit "(a)") (Some (lit "True")).

Definition sample_step : agg_state -> Entry -> result agg_state :=
  aggregate_entry nfc_ascii unidecode_ascii slug_ascii bipa_sample sample_phoible_lang.

(** A language file in which two rows share the inventory ["A"]; the second
    row is short, and without a glottocode. *)
Definition sample_language_rows : list Row :=
  [ list_to_map [ (lit "ID", Some (lit "A_first")); (lit "Name", Some (lit "First"));
                  (lit "Glottocode", Some (lit "glot1234")) ];
    list_to_map [ (lit "ID", Some (lit "A_second")); (lit "Name", Some (lit "Second"));
                  (lit "Glottocode", None) ];
    list_to_map [ (lit "ID", Some (lit "B")); (lit "Name", Some (lit "Third"));
                  (lit "Glottocode", Some (lit "glot1234")) ] ].

(** What the first loop builds from them. *)
Definition sample_mapping : gmap str str * gset str :=
  ({[ lit "A" := lit "A_second"; lit "B" := lit "B" ]}, {[ lit "glot1234" ]}).

(** Two languoids with the glottocode of the sample rows, and the raw data of
    a run with one row-inheritance file and one UPSID inventory. *)
Definition sample_glottolog : list (Glottolog.Languoid N) :=
  [ Glottolog.mkLanguoid (lit "glot1234") [] None None None [] (lit "Old");
    Glottolog.mkLanguoid (lit "glot1234") [(lit "Fam", lit "fami1234")]
      (Some (lit "abc")) (Some 3%N) None [lit "Eurasia"] (lit "New") ].

Definition sample_raw : RawData :=
  {| AA_inventories := (Some sample_fieldnames, sample_rows);
     EA_inventories := (Some sample_fieldnames, []);
     ER_inventories := (Some sample_fieldnames, []);
     gm_afr_inventories := (Some sample_fieldnames, []);
     gm_sea_inventories := (Some sample_fieldnames, []);
     phoible_inventories := (Some sample_fieldnames, []);
     UZ_inventories := (Some sample_fieldnames, []);
     Ramaswami1999 := [[]; []; sample_ra_fields];
     saphon20121031 := (Some [], []);
     UPSID_Languages := sample_languages;
     UPSID_LanguageCodes := sample_codes;
     UPSID_CharCodes := [sample_charcode_header; sample_charcode_line];
     UPSID_Segments :=
       [ list_to_map [ (lit "upsidLangNum", Some (lit "7"));
                       (lit "upsidCCID", Some (lit "c1"));
                       (lit "anomalous", Some (lit "0")) ] ] |}.

(** The three tables of the run of the method on the samples. *)
Definition sample_tables : list Value * list (gmap str (lang_field N)) * list Segment :=
  Eval vm_compute in
    match cmd_makecldf nfc_ascii unidecode_ascii slug_ascii bipa_sample set_order_sample
            sample_bibtex_rows sample_language_rows sample_glottolog sample_raw with
    | Ok tables => tables
    | Raise _ => ([], [], [])
    end.

(** * Properties *)

(** ** The identifier generator *)

Lemma bind_Ok {A B : Type} (r : result A) (f : A -> result B) (b : B) :
  (x <- r ;; f x) = Ok b <-> exists a, r = Ok a /\ f a = Ok b.
Proof.
  destruct r as [a|e]; simpl; split.
  - intros H. by exists a.
  - by intros (a' & [= <-] & H).
  - discriminate.
  - by intros (a' & [=] & _).
Qed.

Lemma asserting_Ok {A : Type} (r : option A) (a : A) : asserting r = Ok a <-> r = Some a.
Proof. destruct r; simpl; split; congruence. Qed.

Lemma asserting_Raise {A : Type} (r : option A) (e : exn) :
  asserting r = Raise e <-> e = AssertionError /\ r = None.
Proof.
  destruct r; simpl; split; try discriminate.
  - by intros [_ [=]].
  - by intros [= <-].
  - by intros [-> _].
Qed.

Section Fingerprint.

Lemma unhex_hex_char d : unhex_char (hex_char d) = d.
Proof. by destruct d. Qed.

Lemma hex_char_not_sep d c :
  c = chr "u" \/ c = chr "_" -> hex_char d <> c.
Proof. intros [-> | ->]; by destruct d. Qed.

Lemma parse_hex_zeros k s :
  parse_hex (replicate k (chr "0") ++ s) = parse_hex s.
Proof. induction k as [|k IH]; [done|]. exact IH. Qed.

Lemma parse_format_X n : parse_hex (format_X n) = n.
Proof.
  unfold parse_hex, format_X.
  rewrite <- list_fmap_compose.
  rewrite (list_fmap_ext _ id (to_list (N.to_hex_uint n))).
  - rewrite list_fmap_id, of_list_to_list. apply Unsigned.of_to.
  - intros i d _. apply unhex_hex_char.
Qed.

Lemma parse_format_04X n : parse_hex (format_04X n) = n.
Proof. unfold format_04X. rewrite parse_hex_zeros. apply parse_format_X. Qed.

Lemma format_04X_inj n m : format_04X n = format_04X m -> n = m.
Proof.
  intros E. rewrite <- (parse_format_04X n), <- (parse_format_04X m). by rewrite E.
Qed.

(** A formatted code point holds neither the token mark nor the underscore. *)
Lemma format_04X_free c n :
  c = chr "u" \/ c = chr "_" -> c ∉ format_04X n.
Proof.
  intros Hc. unfold format_04X, format_X.
  rewrite elem_of_app, elem_of_replicate, list_elem_of_fmap.
  intros [[E _] | (d & E & _)].
  - destruct Hc as [-> | ->]; discriminate E.
  - symmetry in E. by apply hex_char_not_sep in E.
Qed.

Lemma unicode_repr_no_underscore text : chr "_" ∉ unicode_repr text.
Proof.
  induction text as [|c text IH]; [apply not_elem_of_nil|].
  change (unicode_repr (c :: text)) with (chr "u" :: format_04X c ++ unicode_repr text).
  rewrite elem_of_cons, elem_of_app.
  intros [E | [E | E]]; [discriminate E| |by apply IH].
  revert E. apply format_04X_free. by right.
Qed.

Lemma unicode_repr_starts text : starts_token (unicode_repr text).
Proof. destruct text; [by left | right; by eexists]. Qed.

(** Tokens are delimited by their mark: two mark-free heads followed by
    tokens agree as soon as the whole strings do. *)
Lemma token_split (l1 l2 r1 r2 : str) :
  chr "u" ∉ l1 -> chr "u" ∉ l2 -> starts_token r1 -> starts_token r2 ->
  l1 ++ r1 = l2 ++ r2 -> l1 = l2 /\ r1 = r2.
Proof.
  revert l2. induction l1 as [|a l1 IH]; intros [|b l2] H1 H2 S1 S2 E; simpl in E.
  - done.
  - exfalso. destruct S1 as [-> | [s' ->]]; [discriminate E|].
    injection E as <- _. apply H2. by left.
  - exfalso. destruct S2 as [-> | [s' ->]]; [discriminate E|].
    injection E as -> _. apply H1. by left.
  - injection E as -> E.
    destruct (IH l2) as [-> ->]; try done.
    + intros ?. apply H1. by right.
    + intros ?. apply H2. by right.
Qed.

Lemma unicode_repr_inj s1 s2 : unicode_repr s1 = unicode_repr s2 -> s1 = s2.
Proof.
  revert s2. induction s1 as [|c1 s1 IH]; intros [|c2 s2] E; try done.
  change (chr "u" :: format_04X c1 ++ unicode_repr s1
          = chr "u" :: format_04X c2 ++ unicode_repr s2) in E.
  injection E as E.
  apply token_split in E as [Ec Es];
    [|apply format_04X_free; by left|apply format_04X_free; by left
     |apply unicode_repr_starts|apply unicode_repr_starts].
  apply format_04X_inj in Ec as ->. by rewrite (IH _ Es).
Qed.

Lemma split_head_app_sep (sep : N) (l r : str) :
  sep ∉ l -> split_head sep (l ++ sep :: r) = l.
Proof.
  induction l as [|a l IH]; intros H; simpl.
  - by rewrite N.eqb_refl.
  - destruct (N.eqb_spec a sep) as [->|_].
    + exfalso. apply H. by left.
    + f_equal. apply IH. intros ?. apply H. by right.
Qed.

(** Whatever stands before it, the text after the last underscore of an
    identifier is the fingerprint. *)
Lemma fingerprint_half_app (head text : str) :
  fingerprint_half (head ++ lit "_" ++ unicode_repr text) = unicode_repr text.
Proof.
  unfold fingerprint_half.
  change (lit "_" ++ unicode_repr text) with ([chr "_"] ++ unicode_repr text).
  rewrite !rev_app_distr. simpl. rewrite <- app_assoc. simpl.
  rewrite split_head_app_sep; [apply rev_involutive|].
  intros H. apply list_elem_of_In, in_rev, list_elem_of_In in H.
  by apply unicode_repr_no_underscore in H.
Qed.

(** The identifier is the label of the slug, an underscore and the
    fingerprint; it exists exactly when the slug passes its assertion. *)
Lemma compute_id_Ok unidecode slug (text id : str) :
  compute_id unidecode slug text = Ok id <->
  exists label, slug (unidecode text) = Some label /\
    id = label ++ lit "_" ++ unicode_repr text.
Proof.
  unfold compute_id. cbv zeta. rewrite bind_Ok. split.
  - intros (label & H & [= <-]). apply asserting_Ok in H. by exists label.
  - intros (label & H & ->). exists label. by rewrite asserting_Ok.
Qed.

Lemma compute_id_Raise unidecode slug (text : str) (e : exn) :
  compute_id unidecode slug text = Raise e <->
  e = AssertionError /\ slug (unidecode text) = None.
Proof.
  unfold compute_id. cbv zeta.
  destruct (slug (unidecode text)); simpl; split; try discriminate.
  - by intros [_ [=]].
  - by intros [= <-].
  - by intros [-> _].
Qed.

Lemma fingerprint_half_compute_id unidecode slug (head text id : str) :
  compute_id unidecode slug text = Ok id ->
  fingerprint_half (head ++ id) = unicode_repr text.
Proof.
  intros H. apply compute_id_Ok in H as (label & _ & ->).
  rewrite app_assoc. apply fingerprint_half_app.
Qed.

End Fingerprint.

(** C7. [compute_id] is a function of its text; where it returns, the text
    after the last underscore of the identifier is the code-point
    fingerprint; and two texts with different code points have identifiers
    with different fingerprint halves, whatever the transliteration and the
    slug are. *)
Theorem compute_id_fingerprint_injective (unidecode : str -> str)
    (slug : str -> option str) (s1 s2 : str) :
  (s1 = s2 -> compute_id unidecode slug s1 = compute_id unidecode slug s2) /\
  (forall id1, compute_id unidecode slug s1 = Ok id1 ->
     fingerprint_half id1 = unicode_repr s1) /\
  (s1 <> s2 ->
   forall id1 id2,
     compute_id unidecode slug s1 = Ok id1 -> compute_id unidecode slug s2 = Ok id2 ->
     fingerprint_half id1 <> fingerprint_half id2).
Proof.
  pose proof (fingerprint_half_compute_id unidecode slug []) as F. simpl in F.
  split; [by intros ->|]. split; [intros id1; apply F|].
  intros Hne id1 id2 H1 H2 E. rewrite (F _ _ H1), (F _ _ H2) in E.
  by apply unicode_repr_inj in E.
Qed.

(** The letters ["a"] and ["A"] have one slug and two fingerprints. *)
Lemma compute_id_fingerprint_injective_witness :
  exists id1 id2,
    compute_id unidecode_ascii slug_ascii (lit "a") = Ok id1 /\
    compute_id unidecode_ascii slug_ascii (lit "A") = Ok id2 /\
    fingerprint_half id1 <> fingerprint_half id2.
Proof.
  eexists _, _. split; [reflexivity|]. split; [reflexivity|].
  apply (compute_id_fingerprint_injective unidecode_ascii slug_ascii (lit "a") (lit "A"));
    [discriminate|reflexivity|reflexivity].
Defined.

(** ** The normalizer *)

Lemma bounded_by_nil a b : bounded_by a b [] = Raise IndexError.
Proof. reflexivity. Qed.

Lemma bounded_by_cons a b c s : exists r, bounded_by a b (c :: s) = Ok r.
Proof.
  unfold bounded_by, final. simpl first. cbn [bind].
  destruct (N.eqb c a); [|by eexists].
  destruct (last (c :: s)) eqn:E; [by eexists|].
  by apply last_None in E.
Qed.

Lemma length_strip_ends (s : str) : length (strip_ends s) = (length s - 2)%nat.
Proof.
  unfold strip_ends. destruct s as [|c s]; [done|]. simpl tail.
  destruct s as [|d s] using rev_ind; [done|].
  rewrite removelast_last, length_cons, length_app. simpl. lia.
Qed.

(** A text bounded by two different characters is those characters around
    what [strip_ends] keeps. *)
Lemma bounded_by_true a b s :
  a <> b -> bounded_by a b s = Ok true -> s = a :: strip_ends s ++ [b].
Proof.
  intros Hab. unfold bounded_by, final, strip_ends.
  destruct s as [|c s]; [discriminate|]. simpl first. cbn [bind].
  destruct (N.eqb_spec c a) as [->|]; [|discriminate].
  destruct s as [|d s] using rev_ind.
  - simpl. destruct (N.eqb_spec a b); [done|discriminate].
  - change (a :: s ++ [d]) with ((a :: s) ++ [d]). rewrite last_snoc.
    simpl tail. rewrite removelast_last. cbn [bind].
    destruct (N.eqb_spec d b) as [->|]; [done|discriminate].
Qed.

Lemma bounded_by_true_length a b s :
  a <> b -> bounded_by a b s = Ok true -> (length (strip_ends s) < length s)%nat.
Proof.
  intros Hab H. apply bounded_by_true in H; [|done].
  rewrite H at 2. rewrite length_cons, length_app. simpl. lia.
Qed.

Lemma paren_ne : chr "(" <> chr ")".
Proof. discriminate. Qed.

Lemma bracket_ne : chr "[" <> chr "]".
Proof. discriminate. Qed.

Section NormalizeFacts.
Variable nfc : str -> str.

(** The one text on which the second test indexes an empty string. *)
Lemma normalize_grapheme_raises_on_pair (text : str) :
  nfc text = lit "()" -> normalize_grapheme nfc text = Raise IndexError.
Proof. intros H. unfold normalize_grapheme. by rewrite H. Qed.

(** Every other text with a non-empty composed form is normalized. *)
Lemma normalize_grapheme_returns (text : str) :
  nfc text <> [] -> nfc text <> lit "()" ->
  exists t, normalize_grapheme nfc text = Ok t.
Proof.
  intros Hne Hpair. unfold normalize_grapheme.
  destruct (nfc text) as [|c s] eqn:E; [done|].
  destruct (bounded_by_cons (chr "(") (chr ")") c s) as [b1 H1].
  rewrite H1. cbn [bind]. destruct b1.
  - destruct (strip_ends (c :: s)) as [|d m] eqn:Em.
    + exfalso. apply bounded_by_true in H1; [|apply paren_ne].
      rewrite Em in H1. by rewrite H1 in Hpair.
    + destruct (bounded_by_cons (chr "[") (chr "]") d m) as [b2 H2].
      rewrite H2. cbn [bind]. by eexists.
  - destruct (bounded_by_cons (chr "[") (chr "]") c s) as [b2 H2].
    rewrite H2. cbn [bind]. by eexists.
Qed.

(** The output is empty exactly for the bracket pair, alone or in
    parentheses. *)
Lemma normalize_grapheme_empty (text : str) :
  normalize_grapheme nfc text = Ok [] <->
  nfc text = lit "[]" \/ nfc text = lit "([])".
Proof.
  unfold normalize_grapheme. split.
  - intros H. apply bind_Ok in H as (b1 & H1 & H).
    apply bind_Ok in H as (b2 & H2 & [= H]).
    destruct b1.
    + pose proof (bounded_by_true _ _ _ paren_ne H1) as E1.
      destruct b2.
      * pose proof (bounded_by_true _ _ _ bracket_ne H2) as E2.
        rewrite H in E2. right. by rewrite E1, E2.
      * rewrite H in H2. discriminate H2.
    + destruct b2.
      * pose proof (bounded_by_true _ _ _ bracket_ne H2) as E2.
        rewrite H in E2. left. by rewrite E2.
      * rewrite H in H2. discriminate H2.
  - by intros [-> | ->].
Qed.

Hypothesis nfc_idempotent : forall text, nfc (nfc text) = nfc text.
Hypothesis nfc_strip_ends :
  forall text, nfc text = text -> nfc (strip_ends text) = strip_ends text.

(** The normalized text is in composed form. *)
Lemma normalize_grapheme_composed (text t : str) :
  normalize_grapheme nfc text = Ok t -> nfc t = t.
Proof using nfc_idempotent nfc_strip_ends.
  unfold normalize_grapheme. intros H.
  apply bind_Ok in H as (b1 & _ & H). apply bind_Ok in H as (b2 & _ & [= <-]).
  destruct b1, b2; auto.
Qed.

End NormalizeFacts.

Lemma nfc_ascii_fixes_ascii : fixes_ascii nfc_ascii.
Proof. by intros text _. Qed.

Ltac ascii_text := unfold ascii_text; repeat constructor.

(** Normalizing a text that a stripping left in composed form, and that is
    neither empty nor enclosed, changes nothing; an empty or enclosed text is
    never its own normal form. *)
Lemma normalize_grapheme_fixed (nfc : str -> str) (t : str) :
  nfc t = t ->
  normalize_grapheme nfc t = Ok t <-> t <> [] /\ ~ enclosed t.
Proof.
  intros Ht. unfold normalize_grapheme, enclosed. rewrite Ht. split.
  - intros H. apply bind_Ok in H as (b1 & H1 & H).
    apply bind_Ok in H as (b2 & H2 & [= H]).
    split; [by intros ->|].
    destruct b1.
    + exfalso. pose proof (bounded_by_true_length _ _ _ paren_ne H1) as L1.
      destruct b2.
      * pose proof (bounded_by_true_length _ _ _ bracket_ne H2) as L2.
        rewrite H in L2. lia.
      * rewrite H in L1. lia.
    + destruct b2.
      * exfalso. pose proof (bounded_by_true_length _ _ _ bracket_ne H2) as L2.
        rewrite H in L2. lia.
      * intros [E | E]; rewrite E in *; discriminate.
  - intros [Hne Hno]. destruct t as [|c s]; [done|].
    destruct (bounded_by_cons (chr "(") (chr ")") c s) as [b1 H1].
    destruct (bounded_by_cons (chr "[") (chr "]") c s) as [b2 H2].
    destruct b1; [exfalso; apply Hno; by left|].
    destruct b2; [exfalso; apply Hno; by right|].
    rewrite H1. cbn [bind]. by rewrite H2.
Qed.

(** C4 (code bug). On the parenthesis pair the first test strips the text to
    the empty string and the second test indexes it: [IndexError], where the
    bracket pair, tested last, gives the empty string. *)
Theorem normalize_grapheme_paren_pair_raises (nfc : str -> str) :
  fixes_ascii nfc ->
  normalize_grapheme nfc (lit "()") = Raise IndexError /\
  normalize_grapheme nfc (lit "[]") = Ok [].
Proof.
  intros H. split.
  - apply normalize_grapheme_raises_on_pair, H. ascii_text.
  - apply normalize_grapheme_empty. left. apply H. ascii_text.
Qed.

(** The two pairs, with NFC as the identity on ASCII. *)
Lemma normalize_grapheme_paren_pair_raises_witness :
  normalize_grapheme nfc_ascii (lit "()") = Raise IndexError /\
  normalize_grapheme nfc_ascii (lit "[]") = Ok [].
Proof.
  apply (normalize_grapheme_paren_pair_raises nfc_ascii).
  intros text _. reflexivity.
Defined.

(** C5 (as stated, refuted). A doubly enclosed text is stripped once per call:
    the second call strips what the first one left. *)
Lemma normalize_grapheme_not_idempotent :
  exists text : str, text <> [] /\
    forall nfc, fixes_ascii nfc ->
      (t <- normalize_grapheme nfc text ;; normalize_grapheme nfc t)
      <> normalize_grapheme nfc text.
Proof.
  exists (lit "((a))"). split; [discriminate|]. intros nfc H.
  assert (normalize_grapheme nfc (lit "((a))") = Ok (lit "(a)")) as ->.
  { unfold normalize_grapheme. rewrite H; [reflexivity | ascii_text]. }
  cbn [bind].
  assert (normalize_grapheme nfc (lit "(a)") = Ok (lit "a")) as ->.
  { unfold normalize_grapheme. rewrite H; [reflexivity | ascii_text]. }
  discriminate.
Qed.

(** C5 (amended). When NFC is idempotent and composed text stays composed
    under [strip_ends], a second call returns the text of the first call
    exactly when that text is non-empty and not enclosed in its turn. *)
Theorem normalize_grapheme_idempotent_unless_enclosed (nfc : str -> str)
    (nfc_idempotent : forall text, nfc (nfc text) = nfc text)
    (nfc_strip_ends :
       forall text, nfc text = text -> nfc (strip_ends text) = strip_ends text)
    (text t : str) :
  normalize_grapheme nfc text = Ok t ->
  (normalize_grapheme nfc t = Ok t <-> t <> [] /\ ~ enclosed t).
Proof.
  intros H. apply normalize_grapheme_fixed.
  by apply (normalize_grapheme_composed nfc nfc_idempotent nfc_strip_ends text).
Qed.

(** ["(a)"] is normalized to ["a"], which a second call returns unchanged. *)
Lemma normalize_grapheme_idempotent_unless_enclosed_witness :
  normalize_grapheme nfc_ascii (lit "a") = Ok (lit "a")
  <-> lit "a" <> [] /\ ~ enclosed (lit "a").
Proof.
  apply (normalize_grapheme_idempotent_unless_enclosed nfc_ascii
           (fun _ => eq_refl) (fun _ _ => eq_refl) (lit "(a)") (lit "a")).
  reflexivity.
Defined.

(** ** The marginality marks *)

(** Which branch [mark_marginal] takes, from the raw string alone. *)
Lemma mark_marginal_cases (entry : Entry) :
  match mark_marginal entry with
  | Ok marked =>
      lang_id marked = lang_id entry /\ source marked = source entry /\
      inv_id marked = inv_id entry /\
      ((bounded_by (chr "<") (chr ">") (segment_raw entry) = Ok true \/
        bounded_by (chr "'") (chr "'") (segment_raw entry) = Ok true) /\
       segment_raw marked = strip_ends (segment_raw entry) /\
       marginal marked = Some (lit "True")
       \/
       bounded_by (chr "<") (chr ">") (segment_raw entry) = Ok false /\
       bounded_by (chr "'") (chr "'") (segment_raw entry) = Ok false /\
       segment_raw marked = segment_raw entry /\
       marginal marked = Some (lit "False"))
  | Raise e => e = IndexError /\ segment_raw entry = []
  end.
Proof.
  unfold mark_marginal. destruct (segment_raw entry) as [|c s] eqn:E; [done|].
  destruct (bounded_by_cons (chr "<") (chr ">") c s) as [b1 H1].
  destruct (bounded_by_cons (chr "'") (chr "'") c s) as [b2 H2].
  rewrite H1. cbn [bind]. destruct b1; [simpl; auto 10|].
  rewrite H2. cbn [bind]. destruct b2; simpl; auto 10.
Qed.

(** C1 (as stated, refuted). The UPSID reader flags the parenthesised segment
    of an anomalous row as marginal; the aggregation stage, which looks for
    angle brackets and quotes only, resets the flag to false. *)
Lemma parenthesised_flagged_entry_ends_unmarked :
  exists entry marked : Entry,
    read_upsid_segments sample_lang_num2name sample_segments sample_upsid_rows
    = Ok [entry] /\
    segment_raw entry = lit "(x)" /\ marginal entry = Some (lit "True") /\
    mark_marginal entry = Ok marked /\ marginal marked = Some (lit "False").
Proof. vm_compute. eexists _, _. repeat split; reflexivity. Qed.

(** C1 (amended). The marks of the raw string decide the flag alone: the
    flag a reader set is overwritten, with true exactly when the raw string
    is bounded by angle brackets or by quotes, and so with false for a
    parenthesised string. *)
Theorem mark_marginal_overwrites_flag (entry : Entry) (flag : option str) :
  mark_marginal (with_marginal flag entry) = mark_marginal entry /\
  (forall marked, mark_marginal entry = Ok marked ->
     (marginal marked = Some (lit "True") <->
        bounded_by (chr "<") (chr ">") (segment_raw entry) = Ok true \/
        bounded_by (chr "'") (chr "'") (segment_raw entry) = Ok true) /\
     (marginal marked = Some (lit "False") <->
        ~ (bounded_by (chr "<") (chr ">") (segment_raw entry) = Ok true \/
           bounded_by (chr "'") (chr "'") (segment_raw entry) = Ok true))) /\
  (segment_raw entry = lit "(x)" ->
   exists marked, mark_marginal (with_marginal flag entry) = Ok marked /\
     segment_raw marked = lit "(x)" /\ marginal marked = Some (lit "False")).
Proof.
  split; [reflexivity|]. split.
  - intros marked H. pose proof (mark_marginal_cases entry) as C.
    rewrite H in C. destruct C as (_ & _ & _ & [(B & _ & M) | (B1 & B2 & _ & M)]).
    + rewrite M. split; [done|]. split; [discriminate|]. by intros [].
    + rewrite M. split; split; try discriminate; try done.
      * intros [E | E]; rewrite E in *; discriminate.
      * intros _ [E | E]; rewrite E in *; discriminate.
  - intros E. unfold mark_marginal, with_marginal. simpl. rewrite E.
    eexists. by repeat split.
Qed.

(** A parenthesised segment with the flag set ends up unmarked. *)
Lemma mark_marginal_overwrites_flag_witness :
  exists marked,
    mark_marginal
      (with_marginal (Some (lit "True"))
         (sample_entry (lit "UPSID") (lit "B") (lit "(x)") None)) = Ok marked /\
    segment_raw marked = lit "(x)" /\ marginal marked = Some (lit "False").
Proof.
  apply (mark_marginal_overwrites_flag
           (sample_entry (lit "UPSID") (lit "B") (lit "(x)") None) (Some (lit "True"))).
  reflexivity.
Defined.

(** ** The aggregation loop *)

Lemma for_each_invariant {S X : Type} (P : S -> Prop) (body : S -> X -> result S)
    (xs : list X) (st st' : S) :
  (forall s x s', x ∈ xs -> P s -> body s x = Ok s' -> P s') ->
  P st -> for_each body xs st = Ok st' -> P st'.
Proof.
  revert st. induction xs as [|x xs IH]; intros st Hbody Hst H; simpl in H.
  - by injection H as <-.
  - apply bind_Ok in H as (s1 & H1 & H).
    apply (IH s1); [|by apply (Hbody st x); [left|..]|done].
    intros s y s' Hy. apply Hbody. by right.
Qed.

Lemma value_row_lookup counter language_id par_id entry inventory citations catalog :
  let v := value_row counter language_id par_id entry inventory citations catalog in
  v !! lit "ID" = Some (Str (str_of_N counter)) /\
  v !! lit "Language_ID" = Some (Str language_id) /\
  v !! lit "Parameter_ID" = Some (Str par_id) /\
  v !! lit "Value" = Some (Str (segment_raw entry)) /\
  v !! lit "Contribution_ID" = Some (Str inventory) /\
  v !! lit "Source" = Some (StrList citations) /\
  v !! lit "Catalog" = Some (Str catalog) /\
  v !! lit "Marginal" = None.
Proof. repeat split; reflexivity. Qed.

(** The lookup of one key of a row. *)
Ltac row_lookup :=
  unfold turn_row;
  lazymatch goal with
  | |- value_row ?c ?l ?p ?e ?i ?s ?g !! lit ?key = _ =>
      let H := fresh in
      pose proof (value_row_lookup c l p e i s g) as H; cbv zeta in H;
      repeat match type of H with
             | (_ !! lit key = _) /\ _ => exact (proj1 H)
             | _ /\ _ => apply proj2 in H
             | _ !! lit key = _ => exact H
             end
  end.

Lemma value_row_dom counter language_id par_id entry inventory citations catalog :
  dom (value_row counter language_id par_id entry inventory citations catalog)
  = list_to_set
      [ lit "ID"; lit "Language_ID"; lit "Parameter_ID"; lit "Value";
        lit "Contribution_ID"; lit "Source"; lit "Catalog" ].
Proof. unfold value_row. by rewrite dom_list_to_map_L. Qed.

Lemma first_allophone_keeps (entry : Entry) :
  inv_id (first_allophone entry) = inv_id entry /\
  source (first_allophone entry) = source entry.
Proof. unfold first_allophone. by case_match. Qed.

Section AggregationFacts.
Variable nfc : str -> str.
Variable unidecode : str -> str.
Variable slug : str -> option str.
Variable bipa : str -> Sound.
Variable phoible_lang : gmap str str.

#[local] Abbreviation canonical := (canonicalize unidecode slug bipa).
#[local] Abbreviation step := (aggregate_entry nfc unidecode slug bipa phoible_lang).

(** The tuple of a text, where the slug passes its assertion. *)
Lemma canonicalize_Ok (normalized : str) (p : ParameterTuple) :
  canonical normalized = Ok p <->
  exists label, slug (unidecode normalized) = Some label /\
    p = match bipa normalized with
        | UnknownSound =>
            (lit "UNK_" ++ label ++ lit "_" ++ unicode_repr normalized, normalized, [], [])
        | KnownSound grapheme name =>
            (lit "BIPA_" ++ label ++ lit "_" ++ unicode_repr normalized, normalized,
             grapheme, name)
        end.
Proof.
  unfold canonicalize. destruct (bipa normalized); rewrite bind_Ok; split.
  - intros (id & H & [= <-]). apply compute_id_Ok in H as (label & H & ->).
    by exists label.
  - intros (label & H & ->). eexists. split; [|done]. apply compute_id_Ok. by exists label.
  - intros (id & H & [= <-]). apply compute_id_Ok in H as (label & H & ->).
    by exists label.
  - intros (label & H & ->). eexists. split; [|done]. apply compute_id_Ok. by exists label.
Qed.

Lemma canonicalize_Raise (normalized : str) (e : exn) :
  canonical normalized = Raise e <->
  e = AssertionError /\ slug (unidecode normalized) = None.
Proof.
  rewrite <- compute_id_Raise. unfold canonicalize.
  destruct (bipa normalized);
    destruct (compute_id unidecode slug normalized); simpl; split; congruence.
Qed.

(** What a turn of the loop does, when it does not raise. *)
Lemma aggregate_entry_Ok (st st' : agg_state) (entry : Entry) :
  step st entry = Ok st' <->
  exists marked normalized parameter inventory language_id catalog,
    mark_marginal entry = Ok marked /\
    normalize_grapheme nfc (segment_raw (first_allophone marked)) = Ok normalized /\
    canonical normalized = Ok parameter /\
    inv_id entry = Some inventory /\
    phoible_lang !! inventory = Some language_id /\
    slug (source entry) = Some catalog /\
    st' = {| parameters := parameters st ++ [parameter];
             values := values st ++
               [value_row (counter st) language_id (par_id_of parameter)
                  (first_allophone marked) inventory
                  (default [] (source_map st !! inventory)) catalog];
             counter := counter st + 1;
             source_map :=
               match source_map st !! inventory with
               | Some _ => source_map st
               | None => <[inventory := []]> (source_map st)
               end |}.
Proof.
  unfold aggregate_entry.
  assert (forall marked, mark_marginal entry = Ok marked ->
            inv_id (first_allophone marked) = inv_id entry /\
            source (first_allophone marked) = source entry) as Hkeep.
  { intros marked H. pose proof (mark_marginal_cases entry) as C. rewrite H in C.
    destruct C as (_ & <- & <- & _). apply first_allophone_keeps. }
  split.
  - intros H. apply bind_Ok in H as (marked & Hm & H).
    apply bind_Ok in H as (normalized & Hn & H).
    apply bind_Ok in H as (parameter & Hp & H).
    apply bind_Ok in H as (language_id & Hl & H).
    destruct (Hkeep _ Hm) as [Hi Hs]. rewrite Hi in Hl, H. rewrite Hs in H.
    destruct (inv_id entry) as [inventory|] eqn:Ei; [|discriminate].
    simpl in Hl, H. unfold getitem in Hl.
    destruct (phoible_lang !! inventory) as [l|] eqn:El; [|discriminate].
    injection Hl as ->. unfold defaultdict_getitem in H.
    destruct (slug (source entry)) as [catalog|] eqn:Ec;
      [|destruct (source_map st !! inventory); discriminate H].
    exists marked, normalized, parameter, inventory, language_id, catalog.
    repeat split; try done.
    destruct (source_map st !! inventory); simpl in H; by injection H as <-.
  - intros (marked & normalized & parameter & inventory & language_id & catalog
            & Hm & Hn & Hp & Ei & El & Ec & ->).
    rewrite Hm. cbn [bind]. rewrite Hn. cbn [bind]. rewrite Hp. cbn [bind].
    destruct (Hkeep _ Hm) as [Hi Hs]. rewrite Hi, Hs, Ei. simpl.
    unfold getitem. rewrite El. cbn [bind].
    unfold defaultdict_getitem. rewrite Ec.
    by destruct (source_map st !! inventory).
Qed.

(** The identifier decides the normalized text, and with it the tuple. *)
Lemma canonicalize_normalized (normalized : str) (p : ParameterTuple) :
  canonical normalized = Ok p -> normalized_of p = normalized.
Proof.
  intros H. apply canonicalize_Ok in H as (label & _ & ->). by destruct (bipa normalized).
Qed.

Lemma canonicalize_par_id_fingerprint (normalized : str) (p : ParameterTuple) :
  canonical normalized = Ok p ->
  fingerprint_half (par_id_of p) = unicode_repr normalized.
Proof.
  intros H. apply canonicalize_Ok in H as (label & _ & ->).
  destruct (bipa normalized).
  - exact (fingerprint_half_app (lit "UNK_" ++ label) normalized).
  - exact (fingerprint_half_app (lit "BIPA_" ++ label) normalized).
Qed.

Lemma canonicalize_par_id_inj (n1 n2 : str) (p1 p2 : ParameterTuple) :
  canonical n1 = Ok p1 -> canonical n2 = Ok p2 ->
  par_id_of p1 = par_id_of p2 -> n1 = n2.
Proof.
  intros H1 H2 E. apply unicode_repr_inj.
  by rewrite <- (canonicalize_par_id_fingerprint _ _ H1),
    <- (canonicalize_par_id_fingerprint _ _ H2), E.
Qed.



End AggregationFacts.

(** ** The segment table *)

Lemma segment_of_lookup (id normalized bipa_grapheme desc : str) :
  let s := segment_of (id, normalized, bipa_grapheme, desc) in
  s !! lit "ID" = Some id /\ s !! lit "Name" = Some normalized /\
  s !! lit "BIPA" = Some bipa_grapheme /\ s !! lit "Description" = Some desc.
Proof. repeat split; reflexivity. Qed.

Lemma segment_of_id (p : ParameterTuple) :
  segment_of p !! lit "ID" = Some (par_id_of p).
Proof. by destruct p as [[[a b] c] d]. Qed.

#[local] Instance segment_of_inj : Inj (=) (=) segment_of.
Proof.
  intros [[[a1 b1] c1] d1] [[[a2 b2] c2] d2] E.
  destruct (segment_of_lookup a1 b1 c1 d1) as (Ha & Hb & Hc & Hd).
  cbv zeta in Ha, Hb, Hc, Hd. rewrite E in Ha, Hb, Hc, Hd.
  destruct (segment_of_lookup a2 b2 c2 d2) as (Ha' & Hb' & Hc' & Hd').
  cbv zeta in Ha', Hb', Hc', Hd'. congruence.
Qed.

(** The table holds one dict per distinct tuple, and nothing else, whatever
    the order of the set is. *)
Lemma build_segments_spec (set_order : set_iteration ParameterTuple)
    (ps : list ParameterTuple) :
  NoDup (build_segments set_order ps) /\
  forall s, s ∈ build_segments set_order ps <-> exists p, p ∈ ps /\ s = segment_of p.
Proof.
  unfold build_segments. split.
  - apply (NoDup_fmap_2 _), iter_set_NoDup.
  - intros s. rewrite list_elem_of_fmap. split.
    + intros (p & -> & Hp). exists p. split; [|done]. by apply iter_set_elem_of in Hp.
    + intros (p & Hp & ->). exists p. split; [done|]. by apply iter_set_elem_of.
Qed.

(** ** The bibliography *)

Lemma build_source_map_None (rows : list (str * str)) (inventory : str) :
  build_source_map rows !! inventory = None <-> inventory ∉ rows.*1.
Proof.
  unfold build_source_map.
  enough (forall m : gmap str (list str),
            foldl (fun m row => <[row.1 := default [] (m !! row.1) ++ [row.2]]> m) m rows
              !! inventory = None
            <-> m !! inventory = None /\ inventory ∉ rows.*1) as H.
  { rewrite H, lookup_empty. tauto. }
  induction rows as [|[k b] rows IH]; intros m; simpl.
  - rewrite elem_of_nil. tauto.
  - rewrite IH, not_elem_of_cons, lookup_insert_None. simpl. intuition congruence.
Qed.

(** ** Whole runs of the loop *)

Section AggregationRuns.
Variable nfc : str -> str.
Variable unidecode : str -> str.
Variable slug : str -> option str.
Variable bipa : str -> Sound.
Variable phoible_lang : gmap str str.

#[local] Abbreviation step := (aggregate_entry nfc unidecode slug bipa phoible_lang).

(** Whether a turn raises is decided by the entry, not by the state. *)
Lemma aggregate_entry_Ok_any_state (st1 st1' st2 : agg_state) (entry : Entry) :
  step st1 entry = Ok st1' -> exists st2', step st2 entry = Ok st2'.
Proof.
  intros H.
  apply aggregate_entry_Ok in H as (m & n & p & i & l & c & Hm & Hn & Hp & Hi & Hl & Hc & _).
  eexists. apply aggregate_entry_Ok. by exists m, n, p, i, l, c.
Qed.

Lemma for_each_Ok_any_state (data : list Entry) (st1 st1' st2 : agg_state) :
  for_each step data st1 = Ok st1' -> exists st2', for_each step data st2 = Ok st2'.
Proof.
  revert st1 st2. induction data as [|e data IH]; intros st1 st2 H; simpl in *.
  - by eexists.
  - apply bind_Ok in H as (s1 & H1 & H).
    destruct (aggregate_entry_Ok_any_state _ _ st2 _ H1) as [s2 H2].
    rewrite H2. cbn [bind]. by apply (IH s1).
Qed.

(** An entry whose turn raises stops the run. *)
Lemma for_each_raises (data : list Entry) (entry : Entry) (st0 : agg_state) :
  entry ∈ data -> (forall st st', step st entry <> Ok st') ->
  exists e, for_each step data st0 = Raise e.
Proof.
  intros Hin Hbad. revert st0.
  induction data as [|e data IH]; intros st0; [by apply elem_of_nil in Hin|].
  simpl. destruct (step st0 e) as [s1|x] eqn:E; cbn [bind]; [|by eexists].
  apply elem_of_cons in Hin as [-> | Hin]; [by apply Hbad in E|by apply IH].
Qed.

Lemma aggregate_entry_rows_follow bibliography (st st' : agg_state) (entry : Entry) :
  rows_follow bibliography st -> step st entry = Ok st' -> rows_follow bibliography st'.
Proof.
  intros [Hmap Hrows] H.
  apply aggregate_entry_Ok in H as (m & n & p & i & l & c & _ & _ & _ & _ & _ & _ & ->).
  split; simpl.
  - intros k. rewrite <- Hmap.
    destruct (source_map st !! i) eqn:E; [done|].
    destruct (decide (i = k)) as [<-|]; [by rewrite lookup_insert_eq, E|].
    by rewrite lookup_insert_ne.
  - intros v Hv. apply elem_of_app in Hv as [Hv | Hv]; [by apply Hrows|].
    apply list_elem_of_singleton in Hv as ->.
    split; [apply value_row_dom|]. split; [apply value_row_lookup|].
    intros inventory Hc.
    assert (inventory = i) as ->.
    { destruct (value_row_lookup (counter st) l (par_id_of p)
                  (first_allophone m) i (default [] (source_map st !! i)) c)
        as (_ & _ & _ & _ & Hi & _). cbv zeta in Hi. congruence. }
    rewrite <- Hmap. apply value_row_lookup.
Qed.

Lemma for_each_rows_follow bibliography (data : list Entry) (st : agg_state) :
  for_each step data (mkAgg [] [] 1 bibliography) = Ok st ->
  rows_follow bibliography st /\ length (values st) = length data.
Proof.
  intros H.
  apply (for_each_invariant
           (fun s => rows_follow bibliography s) step data _ st) in H as Hrows.
  - split; [done|].
    enough (forall st0, for_each step data st0 = Ok st ->
              length (values st) = (length (values st0) + length data)%nat) as Hlen
      by by apply Hlen in H.
    clear. induction data as [|e data IH]; intros st0 H; simpl in *.
    + injection H as <-. lia.
    + apply bind_Ok in H as (s1 & H1 & H). apply IH in H. rewrite H.
      apply aggregate_entry_Ok in H1
        as (m & n & p & i & l & c & _ & _ & _ & _ & _ & _ & ->).
      simpl. rewrite length_app. simpl. lia.
  - intros s e s' _. apply aggregate_entry_rows_follow.
  - split; [done|]. by intros v ?%elem_of_nil.
Qed.

End AggregationRuns.

(** ** A run as a map over its entries *)

Section RunClosedForm.
Variable nfc : str -> str.
Variable unidecode : str -> str.
Variable slug : str -> option str.
Variable bipa : str -> Sound.
Variable phoible_lang : gmap str str.

#[local] Abbreviation canonical := (canonicalize unidecode slug bipa).
#[local] Abbreviation step := (aggregate_entry nfc unidecode slug bipa phoible_lang).
#[local] Abbreviation turn := (turn_of nfc unidecode slug bipa phoible_lang).

Lemma turn_of_Some (entry : Entry) (t : Turn) :
  turn entry = Some t <->
  exists marked, mark_marginal entry = Ok marked /\
    turn_entry t = first_allophone marked /\
    normalize_grapheme nfc (segment_raw (first_allophone marked)) = Ok (turn_text t) /\
    canonical (turn_text t) = Ok (turn_parameter t) /\
    inv_id entry = Some (turn_inventory t) /\
    phoible_lang !! turn_inventory t = Some (turn_language t) /\
    slug (source entry) = Some (turn_catalog t).
Proof.
  unfold turn_of. split.
  - intros H.
    destruct (mark_marginal entry) as [m|]; [|done].
    destruct (normalize_grapheme nfc (segment_raw (first_allophone m))) as [n|] eqn:Hn;
      [|done].
    destruct (canonical n) as [p|] eqn:Hp; [|done].
    destruct (inv_id entry) as [i|]; [|done]. simpl in H.
    destruct (phoible_lang !! i) as [l|] eqn:Hl; [|done]. simpl in H.
    destruct (slug (source entry)) as [c|]; [|done]. injection H as <-.
    exists m. by repeat split.
  - intros (m & -> & He & -> & -> & -> & Hl & Hc). simpl. rewrite Hl. simpl.
    rewrite Hc. simpl. destruct t. simpl in *. by subst.
Qed.

Lemma aggregate_entry_turn (st : agg_state) (entry : Entry) :
  match turn entry with
  | Some t =>
      exists st', step st entry = Ok st' /\
        parameters st' = parameters st ++ [turn_parameter t] /\
        values st' = values st ++ [turn_row (source_map st) (counter st) 0 t] /\
        counter st' = (counter st + 1)%N /\
        forall k, default [] (source_map st' !! k) = default [] (source_map st !! k)
  | None => exists e, step st entry = Raise e
  end.
Proof.
  destruct (turn entry) as [t|] eqn:Ht.
  - apply turn_of_Some in Ht as (m & Hm & He & Hn & Hp & Hi & Hl & Hc).
    eexists. split.
    { apply aggregate_entry_Ok.
      by exists m, (turn_text t), (turn_parameter t), (turn_inventory t),
        (turn_language t), (turn_catalog t). }
    simpl. unfold turn_row. rewrite N.add_0_r, He. repeat split.
    intros k. destruct (source_map st !! turn_inventory t) eqn:E; [done|].
    destruct (decide (turn_inventory t = k)) as [<-|]; [by rewrite lookup_insert_eq, E|].
    by rewrite lookup_insert_ne.
  - destruct (step st entry) as [st'|e] eqn:H; [|by eexists]. exfalso.
    apply aggregate_entry_Ok in H
      as (m & n & p & i & l & c & Hm & Hn & Hp & Hi & Hl & Hc & _).
    assert (turn entry = Some (mkTurn (first_allophone m) n p i l c)) as E; [|congruence].
    apply turn_of_Some. by exists m.
Qed.

(** The state after the entries, from the state before them. *)
Lemma for_each_turns (data : list Entry) (st : agg_state) :
  match mapM turn data with
  | Some turns =>
      exists st', for_each step data st = Ok st' /\
        parameters st' = parameters st ++ (turn_parameter <$> turns) /\
        values st' = values st ++ imap (turn_row (source_map st) (counter st)) turns
  | None => exists e, for_each step data st = Raise e
  end.
Proof.
  revert st. induction data as [|entry data IH]; intros st.
  - simpl. eexists. by rewrite !app_nil_r.
  - cbn [mapM for_each].
    pose proof (aggregate_entry_turn st entry) as H1.
    destruct (turn entry) as [t|]; simpl; [|by destruct H1 as [e ->]; eexists].
    destruct H1 as (st1 & -> & Hp & Hv & Hc & Hm). cbn [bind].
    specialize (IH st1).
    destruct (mapM turn data) as [turns|]; simpl; [|done].
    destruct IH as (st' & -> & Hp' & Hv'). eexists. split; [done|].
    rewrite Hp', Hp, Hv', Hv, <- !app_assoc. split; [done|].
    do 2 f_equal. simpl. apply imap_ext. intros k t' _. simpl.
    unfold turn_row. rewrite Hc, Hm.
    replace (counter st + 1 + N.of_nat k)%N with (counter st + N.of_nat (S k))%N; [done|].
    rewrite Nat2N.inj_succ. lia.
Qed.

Lemma aggregate_turns (set_order : set_iteration ParameterTuple)
    (bibliography : gmap str (list str)) (data : list Entry) :
  match mapM turn data with
  | Some turns =>
      aggregate nfc unidecode slug bipa phoible_lang set_order bibliography data
      = Ok (imap (turn_row bibliography 1) turns,
            build_segments set_order (turn_parameter <$> turns))
  | None =>
      exists e,
        aggregate nfc unidecode slug bipa phoible_lang set_order bibliography data
        = Raise e
  end.
Proof.
  unfold aggregate.
  pose proof (for_each_turns data (mkAgg [] [] 1 bibliography)) as H.
  destruct (mapM turn data) as [turns|].
  - destruct H as (st & -> & Hp & Hv). cbn [bind]. by rewrite Hp, Hv.
  - destruct H as [e ->]. by eexists.
Qed.

(** A run that completes, as its turns. *)
Lemma aggregate_Ok_turns (set_order : set_iteration ParameterTuple)
    (bibliography : gmap str (list str)) (data : list Entry)
    (rows : list Value) (segments : list Segment) :
  aggregate nfc unidecode slug bipa phoible_lang set_order bibliography data
  = Ok (rows, segments) ->
  exists turns, mapM turn data = Some turns /\
    rows = imap (turn_row bibliography 1) turns /\
    segments = build_segments set_order (turn_parameter <$> turns).
Proof.
  intros H. pose proof (aggregate_turns set_order bibliography data) as T.
  destruct (mapM turn data) as [turns|]; [|destruct T as [e T]; congruence].
  rewrite T in H. injection H as <- <-. by exists turns.
Qed.

Lemma mapM_turns (data : list Entry) (turns : list Turn) (t : Turn) :
  mapM turn data = Some turns -> t ∈ turns ->
  exists entry, entry ∈ data /\ turn entry = Some t.
Proof.
  intros M%mapM_Some_1 Ht.
  apply list_elem_of_lookup in Ht as [k Hk].
  destruct (Forall2_lookup_r _ _ _ _ _ M Hk) as (entry & He & Hturn).
  exists entry. split; [|done]. by apply list_elem_of_lookup_2 in He.
Qed.

End RunClosedForm.

Lemma mapM_omap {A B : Type} (f : A -> option B) (l : list A) (k : list B) :
  mapM f l = Some k -> omap f l = k.
Proof.
  intros M%mapM_Some_1. induction M as [|x y l k Hx _ IH]; [done|].
  rewrite <- IH. simpl. by rewrite Hx.
Qed.

(** ** What the aggregation guarantees *)

Section AggregationClaims.
Variable nfc : str -> str.
Variable unidecode : str -> str.
Variable slug : str -> option str.
Variable bipa : str -> Sound.
Variable phoible_lang : gmap str str.
Variable set_order : set_iteration ParameterTuple.

#[local] Abbreviation canonical := (canonicalize unidecode slug bipa).
#[local] Abbreviation step := (aggregate_entry nfc unidecode slug bipa phoible_lang).
#[local] Abbreviation run := (aggregate nfc unidecode slug bipa phoible_lang set_order).

(** The last tuple and the last row after a turn of the loop. *)
Lemma aggregate_entry_last (st st' : agg_state) (entry : Entry) :
  step st entry = Ok st' ->
  exists normalized p v,
    canonical normalized = Ok p /\
    last (parameters st') = Some p /\
    last (values st') = Some v /\
    v !! lit "Parameter_ID" = Some (Str (par_id_of p)).
Proof.
  intros H.
  apply aggregate_entry_Ok in H as (m & n & p & i & l & c & _ & _ & Hp & _ & _ & _ & ->).
  exists n, p. eexists. simpl. rewrite !last_snoc. repeat split. exact Hp.
Qed.

(** C2. Two entries, of any source and language, whose turns of the loop
    give tuples with the same normalized text give the same parameter id, in
    the tuple and in the [Parameter_ID] of the row. *)
Theorem equal_normalized_text_equal_parameter_id
    (st1 st2 st1' st2' : agg_state) (e1 e2 : Entry) (p1 p2 : ParameterTuple) :
  step st1 e1 = Ok st1' -> step st2 e2 = Ok st2' ->
  last (parameters st1') = Some p1 -> last (parameters st2') = Some p2 ->
  normalized_of p1 = normalized_of p2 ->
  par_id_of p1 = par_id_of p2 /\
  exists v1 v2,
    last (values st1') = Some v1 /\ last (values st2') = Some v2 /\
    v1 !! lit "Parameter_ID" = Some (Str (par_id_of p1)) /\
    v2 !! lit "Parameter_ID" = Some (Str (par_id_of p1)).
Proof.
  intros H1 H2 L1 L2 E.
  apply aggregate_entry_last in H1 as (n1 & q1 & v1 & C1 & P1 & V1 & I1).
  apply aggregate_entry_last in H2 as (n2 & q2 & v2 & C2 & P2 & V2 & I2).
  rewrite P1 in L1. rewrite P2 in L2. injection L1 as ->. injection L2 as ->.
  rewrite (canonicalize_normalized _ _ _ _ _ C1),
    (canonicalize_normalized _ _ _ _ _ C2) in E. subst n2.
  assert (p1 = p2) as <- by congruence.
  split; [done|]. by exists v1, v2.
Qed.

(** C3 (code bug). A run appends one row per entry; each row has seven keys,
    and ["Marginal"], a column the table declares, is not one of them. *)
Theorem value_row_lacks_marginal (bibliography : gmap str (list str))
    (data : list Entry) (rows : list Value) (segments : list Segment) :
  run bibliography data = Ok (rows, segments) ->
  length rows = length data /\
  lit "Marginal" ∈ value_table_columns /\
  forall v, v ∈ rows ->
    dom v = list_to_set
              [ lit "ID"; lit "Language_ID"; lit "Parameter_ID"; lit "Value";
                lit "Contribution_ID"; lit "Source"; lit "Catalog" ] /\
    v !! lit "Marginal" = None.
Proof.
  unfold aggregate. intros H. apply bind_Ok in H as (st & Hrun & [= <- _]).
  apply for_each_rows_follow in Hrun as [[_ Hrows] Hlen].
  split; [done|]. split; [by left|].
  intros v Hv. destruct (Hrows v Hv) as (Hd & Hm & _). by split.
Qed.

(** C8 (code bug). Where the slug of the transliterated text passes its
    assertion, a text the reference resolves gets the prefix ["BIPA_"], the
    rendering and the name of the sound, and any other text gets ["UNK_"] and
    two empty fields.  Where the assertion fails there is no tuple, resolved
    or not: [AssertionError], which ends the turn of every entry that is
    normalized to that text. *)
Theorem canonicalize_raises_where_slug_asserts (normalized : str) :
  (forall label, slug (unidecode normalized) = Some label ->
     canonical normalized
     = Ok match bipa normalized with
          | KnownSound grapheme name =>
              (lit "BIPA_" ++ label ++ lit "_" ++ unicode_repr normalized, normalized,
               grapheme, name)
          | UnknownSound =>
              (lit "UNK_" ++ label ++ lit "_" ++ unicode_repr normalized, normalized,
               [], [])
          end) /\
  (slug (unidecode normalized) = None ->
   canonical normalized = Raise AssertionError /\
   forall st entry marked,
     mark_marginal entry = Ok marked ->
     normalize_grapheme nfc (segment_raw (first_allophone marked)) = Ok normalized ->
     step st entry = Raise AssertionError).
Proof.
  split.
  - intros label H. apply canonicalize_Ok. exists label. split; [done|].
    by destruct (bipa normalized).
  - intros H.
    assert (canonical normalized = Raise AssertionError) as E
      by by apply canonicalize_Raise.
    split; [exact E|]. intros st entry marked Hm Hn.
    unfold aggregate_entry. rewrite Hm. cbn [bind]. rewrite Hn. cbn [bind].
    by rewrite E.
Qed.

(** C10. In a run that completes, the row of every entry of an inventory
    without a row in the bibliography file is there, with that inventory and
    with the empty list under ["Source"]; whether a run completes does not
    depend on the bibliography; and an entry whose inventory has no language
    stops the run. *)
Theorem missing_bibliography_empty_source
    (bibtex_rows : list (str * str)) (data : list Entry) (inventory : str) :
  inventory ∉ bibtex_rows.*1 ->
  (forall rows segments,
     run (build_source_map bibtex_rows) data = Ok (rows, segments) ->
     length rows = length data /\
     (forall k entry, data !! k = Some entry -> inv_id entry = Some inventory ->
        exists v, rows !! k = Some v /\
          v !! lit "Contribution_ID" = Some (Str inventory) /\
          v !! lit "Source" = Some (StrList [])) /\
     (forall v, v ∈ rows -> v !! lit "Contribution_ID" = Some (Str inventory) ->
        v !! lit "Source" = Some (StrList []))) /\
  (forall bibliography r,
     run bibliography data = Ok r ->
     exists r', run (build_source_map bibtex_rows) data = Ok r') /\
  (forall entry unmapped, entry ∈ data -> inv_id entry = Some unmapped ->
     phoible_lang !! unmapped = None ->
     exists e, run (build_source_map bibtex_rows) data = Raise e).
Proof.
  intros Hrows. apply build_source_map_None in Hrows.
  split; [|split].
  - intros rows segments H.
    apply aggregate_Ok_turns in H as Ht. destruct Ht as (turns & M & -> & _).
    unfold aggregate in H. apply bind_Ok in H as (st & Hrun & [= Hv _]).
    apply for_each_rows_follow in Hrun as [[_ Hst] Hlen].
    split; [by rewrite <- Hlen, Hv|]. split.
    + intros k entry Hk Hi. apply mapM_Some_1 in M.
      destruct (Forall2_lookup_l _ _ _ _ _ M Hk) as (t & Ht & Hturn).
      apply turn_of_Some in Hturn as (m & _ & _ & _ & _ & Hi' & _).
      rewrite Hi in Hi'. injection Hi' as Hi'.
      exists (turn_row (build_source_map bibtex_rows) 1 k t).
      split; [by rewrite list_lookup_imap, Ht|]. unfold turn_row.
      rewrite <- Hi', Hrows. split; apply value_row_lookup.
    + intros v Hin Hc. rewrite <- Hv in Hin. destruct (Hst v Hin) as (_ & _ & Hs).
      rewrite (Hs inventory Hc). by rewrite Hrows.
  - intros bibliography r H. unfold aggregate in H |- *.
    apply bind_Ok in H as (st & Hrun & _).
    eapply for_each_Ok_any_state in Hrun as [st' ->]. by eexists.
  - intros entry unmapped Hin Hi Hl. unfold aggregate.
    destruct (for_each_raises nfc unidecode slug bipa phoible_lang data entry
                (mkAgg [] [] 1 (build_source_map bibtex_rows)) Hin) as [e ->];
      [|by eexists].
    intros st st' H.
    apply aggregate_entry_Ok in H
      as (m & n & p & i & l & c & _ & _ & _ & Hi' & Hl' & _).
    congruence.
Qed.


End AggregationClaims.

(** ** The guarantees on a sample run *)

(** ["<a>"] of a row-inheritance source and ["(a)"] of UPSID both normalize to
    ["a"] and get one parameter id. *)
Lemma equal_normalized_text_equal_parameter_id_witness :
  exists st1 st2 p1 p2,
    sample_step sample_state sample_marked = Ok st1 /\
    sample_step sample_state sample_flagged = Ok st2 /\
    last (parameters st1) = Some p1 /\ last (parameters st2) = Some p2 /\
    normalized_of p1 = normalized_of p2 /\ par_id_of p1 = par_id_of p2.
Proof.
  eexists _, _, _, _.
  split; [reflexivity|]. split; [reflexivity|].
  split; [reflexivity|]. split; [reflexivity|]. split; [reflexivity|].
  eapply (equal_normalized_text_equal_parameter_id
            nfc_ascii unidecode_ascii slug_ascii bipa_sample sample_phoible_lang
            sample_state sample_state _ _ sample_marked sample_flagged);
    reflexivity.
Defined.

(** Three entries, three rows, none with the key ["Marginal"]. *)
Lemma value_row_lacks_marginal_witness :
  exists rows segments,
    aggregate nfc_ascii unidecode_ascii slug_ascii bipa_sample sample_phoible_lang
      set_order_sample
      (build_source_map sample_bibtex_rows) [sample_marked; sample_flagged; sample_plain]
    = Ok (rows, segments) /\
    length rows = 3%nat /\
    forall v, v ∈ rows -> v !! lit "Marginal" = None.
Proof.
  destruct (value_row_lacks_marginal
              nfc_ascii unidecode_ascii slug_ascii bipa_sample sample_phoible_lang
              set_order_sample (build_source_map sample_bibtex_rows)
              [sample_marked; sample_flagged; sample_plain] _ _ eq_refl)
    as (Hlen & _ & Hrows).
  eexists _, _. split; [reflexivity|]. split; [exact Hlen|].
  intros v Hv. by apply Hrows.
Defined.

(** The flag cannot be read off the rows: a marked and a plain segment give
    the same row. *)
Lemma marginal_flag_lost :
  exists m1 m2 st1 st2,
    mark_marginal sample_marked = Ok m1 /\ mark_marginal sample_plain = Ok m2 /\
    marginal m1 = Some (lit "True") /\ marginal m2 = Some (lit "False") /\
    sample_step sample_state sample_marked = Ok st1 /\
    sample_step sample_state sample_plain = Ok st2 /\
    values st1 = values st2.
Proof. eexists _, _, _, _. repeat split; reflexivity. Qed.

(** The control character U+0001 is not in the sample reference, and the
    slug of it fails its assertion: no ["UNK_"] tuple, and the turn of an
    entry with that segment raises. *)
Lemma canonicalize_raises_where_slug_asserts_witness :
  bipa_sample [1%N] = UnknownSound /\
  canonicalize unidecode_ascii slug_ascii bipa_sample [1%N] = Raise AssertionError /\
  sample_step sample_state (sample_entry (lit "AA") (lit "A") [1%N] None)
  = Raise AssertionError.
Proof.
  destruct (canonicalize_raises_where_slug_asserts
              nfc_ascii unidecode_ascii slug_ascii bipa_sample sample_phoible_lang [1%N])
    as [_ H].
  destruct (H eq_refl) as [Hc Hstep].
  split; [reflexivity|]. split; [exact Hc|].
  by apply (Hstep sample_state _ (sample_entry (lit "AA") (lit "A") [1%N]
                                    (Some (lit "False")))).
Defined.

(** Inventory ["B"] has no row in the sample bibliography: both of its rows
    are there, with the empty list under ["Source"]. *)
Lemma missing_bibliography_empty_source_witness :
  exists rows segments,
    aggregate nfc_ascii unidecode_ascii slug_ascii bipa_sample sample_phoible_lang
      set_order_sample
      (build_source_map sample_bibtex_rows) [sample_marked; sample_flagged; sample_flagged]
    = Ok (rows, segments) /\
    length rows = 3%nat /\
    exists v, rows !! 2%nat = Some v /\
      v !! lit "Contribution_ID" = Some (Str (lit "B")) /\
      v !! lit "Source" = Some (StrList []).
Proof.
  destruct (missing_bibliography_empty_source
              nfc_ascii unidecode_ascii slug_ascii bipa_sample sample_phoible_lang
              set_order_sample
              sample_bibtex_rows [sample_marked; sample_flagged; sample_flagged] (lit "B")
              ltac:(compute_done)) as (H & _ & _).
  destruct (H _ _ eq_refl) as (Hlen & Hrow & _).
  eexists _, _. split; [reflexivity|]. split; [exact Hlen|].
  exact (Hrow 2%nat sample_flagged eq_refl eq_refl).
Defined.


(** ** The row-inheritance reader *)

Lemma prefixes_snoc (rows : list Row) (row : Row) :
  prefixes (rows ++ [row]) = prefixes rows ++ [rows ++ [row]].
Proof.
  induction rows as [|r rows IH]; [done|].
  simpl. by rewrite IH, fmap_app.
Qed.

Lemma column_snoc (key : str) (rows : list Row) (row : Row) :
  column key (rows ++ [row]) = column key rows ++ [default None (row !! key)].
Proof. unfold column. by rewrite fmap_app. Qed.

Lemma carried_snoc (cells : list (option str)) (cell : option str) :
  carried (cells ++ [cell]) = if truthy cell then cell else carried cells.
Proof.
  unfold carried. rewrite filter_app, filter_cons, filter_nil.
  case_decide as D; destruct (truthy cell); try done.
  - by rewrite last_snoc.
  - by rewrite app_nil_r.
Qed.

Lemma carried_entries_snoc (source_name segment_field : str) (rows : list Row) (row : Row) :
  carried_entries source_name segment_field (rows ++ [row])
  = carried_entries source_name segment_field rows
    ++ option_list (carried_entry source_name segment_field (rows ++ [row])).
Proof.
  unfold carried_entries. by rewrite prefixes_snoc, omap_app.
Qed.

Lemma common_row_after (source_name segment_field : str) (seen : list Row) (row : Row) :
  is_Some (row !! lit "InventoryID") -> is_Some (row !! lit "LanguageName") ->
  is_Some (row !! segment_field) ->
  common_row source_name segment_field
    (common_after source_name segment_field seen) row
  = Ok (common_after source_name segment_field (seen ++ [row])).
Proof.
  intros [inventory Hi] [language Hl] [segment Hs].
  unfold common_row, getitem. rewrite Hi, Hl, Hs. cbn [bind].
  unfold common_after. f_equal. simpl.
  rewrite carried_entries_snoc, !column_snoc, !carried_snoc, Hi, Hl. simpl.
  f_equal. unfold carried_entry. rewrite last_snoc. simpl. rewrite Hs. simpl.
  rewrite !column_snoc, !carried_snoc, Hi, Hl. simpl.
  destruct segment as [[|c seg]|]; simpl; by rewrite ?app_nil_r.
Qed.

Lemma common_rows_after (source_name segment_field : str) (seen rows : list Row) :
  (forall row, row ∈ rows ->
     is_Some (row !! lit "InventoryID") /\ is_Some (row !! lit "LanguageName") /\
     is_Some (row !! segment_field)) ->
  for_each (common_row source_name segment_field) rows
    (common_after source_name segment_field seen)
  = Ok (common_after source_name segment_field (seen ++ rows)).
Proof.
  revert seen. induction rows as [|row rows IH]; intros seen H; simpl.
  - by rewrite app_nil_r.
  - destruct (H row) as (Hi & Hl & Hs); [by left|].
    rewrite common_row_after by done. cbn [bind].
    rewrite IH; [by rewrite <- app_assoc|].
    intros r Hr. apply H. by right.
Qed.

(** C9. On a file with the field names [fieldnames] whose rows have the
    three columns the reader returns, for each row with a non-empty segment
    cell and for no other row, an entry with the last non-empty inventory id
    and language name of the rows read so far; the segment column is
    ["PhonemeOld"] when the file has it, else ["Segment"] when the file has
    it, else ["Phoneme"]. *)
Theorem read_phoible_common_carries_forward
    (fieldnames : list str) (rows : list Row) (source_name : str) :
  (forall row, row ∈ rows ->
     is_Some (row !! lit "InventoryID") /\ is_Some (row !! lit "LanguageName") /\
     is_Some (row !! segment_field_of fieldnames)) ->
  read_phoible_common (Some fieldnames) rows source_name
  = Ok (carried_entries source_name (segment_field_of fieldnames) rows) /\
  (lit "PhonemeOld" ∈ fieldnames -> segment_field_of fieldnames = lit "PhonemeOld") /\
  (lit "PhonemeOld" ∉ fieldnames -> lit "Segment" ∈ fieldnames ->
   segment_field_of fieldnames = lit "Segment") /\
  (lit "PhonemeOld" ∉ fieldnames -> lit "Segment" ∉ fieldnames ->
   segment_field_of fieldnames = lit "Phoneme").
Proof.
  intros H. split.
  - unfold read_phoible_common.
    change (mkCommon None None [])
      with (common_after source_name (segment_field_of fieldnames) []).
    by rewrite common_rows_after.
  - unfold segment_field_of. repeat split; intros; repeat case_bool_decide; done.
Qed.

(** The sparse second row carries the inventory and the language of the
    first; the third row, with an empty segment cell, gives no entry. *)
Lemma read_phoible_common_carries_forward_witness :
  read_phoible_common (Some sample_fieldnames) sample_rows (lit "AA")
  = Ok [ {| lang_id := lit "AA_L1"; source := lit "PHOIBLE_AA";
            inv_id := Some (lit "A"); segment_raw := lit "p"; marginal := None |};
         {| lang_id := lit "AA_L1"; source := lit "PHOIBLE_AA";
            inv_id := Some (lit "A"); segment_raw := lit "t"; marginal := None |} ].
Proof.
  etrans.
  - apply (read_phoible_common_carries_forward sample_fieldnames sample_rows (lit "AA")).
    apply Forall_forall. repeat constructor; by eexists.
  - reflexivity.
Defined.

(** ** The pipeline on small inputs *)

Example unicode_repr_ascii : unicode_repr (lit "a(") = lit "u0061u0028".
Proof. reflexivity. Qed.

(** A code point above the basic plane takes five digits; a combining mark
    is a token of its own. *)
Example unicode_repr_wide : unicode_repr [66376; 97; 769]%N = lit "u10348u0061u0301".
Proof. reflexivity. Qed.

Example compute_id_ascii :
  compute_id unidecode_ascii slug_ascii (lit "tS") = Ok (lit "ts_u0074u0053").
Proof. reflexivity. Qed.

(** Punctuation and white space leave the label empty; a control character
    fails the assertion of the slug. *)
Example compute_id_punctuation :
  compute_id unidecode_ascii slug_ascii (lit "(|) ") = Ok (lit "_u0028u007Cu0029u0020").
Proof. reflexivity. Qed.

Example compute_id_control_character :
  compute_id unidecode_ascii slug_ascii [1%N] = Raise AssertionError.
Proof. reflexivity. Qed.

Lemma format_04X_width (n : N) : (4 <= length (format_04X n))%nat.
Proof. unfold format_04X. rewrite length_app, length_replicate. lia. Qed.

Example normalize_grapheme_parens :
  normalize_grapheme nfc_ascii (lit "(a)") = Ok (lit "a").
Proof. reflexivity. Qed.

Example normalize_grapheme_both :
  normalize_grapheme nfc_ascii (lit "([a])") = Ok (lit "a").
Proof. reflexivity. Qed.

Example normalize_grapheme_brackets_first :
  normalize_grapheme nfc_ascii (lit "[(a)]") = Ok (lit "(a)").
Proof. reflexivity. Qed.

Example normalize_grapheme_nested_pair :
  normalize_grapheme nfc_ascii (lit "([])") = Ok [].
Proof. reflexivity. Qed.

(** The allophone group ["p|pʰ"] keeps its first phoneme. *)
Example first_allophone_group :
  segment_raw
    (first_allophone (sample_entry (lit "AA") (lit "A") [112; 124; 112; 688]%N None))
  = lit "p".
Proof. reflexivity. Qed.

(** A group of two characters is too short to be split. *)
Example first_allophone_short :
  segment_raw (first_allophone (sample_entry (lit "AA") (lit "A") (lit "p|") None))
  = lit "p|".
Proof. reflexivity. Qed.

(** A lone quote is bounded by itself: the stripped text is empty and the
    normalizer raises on it. *)
Example lone_quote_raises :
  sample_step sample_state (sample_entry (lit "AA") (lit "A") (lit "'") None)
  = Raise IndexError.
Proof. reflexivity. Qed.

(** Two sources reporting a segment that normalizes to ["a"]: two rows, one
    segment. *)
Example two_sources_one_segment :
  exists rows segments,
    aggregate nfc_ascii unidecode_ascii slug_ascii bipa_sample sample_phoible_lang
      set_order_sample
      (build_source_map sample_bibtex_rows) [sample_marked; sample_flagged]
    = Ok (rows, segments) /\
    length rows = 2%nat /\
    segments = [segment_of (lit "BIPA_a_u0061", lit "a", lit "a",
                            lit "unrounded open front vowel")] /\
    (fun v : Value => v !! lit "Parameter_ID") <$> rows
    = [Some (Str (lit "BIPA_a_u0061")); Some (Str (lit "BIPA_a_u0061"))] /\
    (fun v : Value => v !! lit "Source") <$> rows
    = [Some (StrList [lit "key1"; lit "key2"]); Some (StrList [])].
Proof. eexists _, _. split; [reflexivity|]. by vm_compute. Qed.

(** * Further properties of the code *)

(** ** Identifiers read back *)

Lemma split_free (sep : N) (l : str) : sep ∉ l -> split sep l = [l].
Proof.
  induction l as [|c l IH]; [done|]. intros H. simpl.
  destruct (N.eqb_spec c sep) as [->|_]; [exfalso; apply H; by left|].
  rewrite IH; [done|]. intros ?. apply H. by right.
Qed.

Lemma split_app_sep (sep : N) (l r : str) :
  sep ∉ l -> split sep (l ++ sep :: r) = l :: split sep r.
Proof.
  induction l as [|c l IH]; intros H; simpl.
  - by rewrite N.eqb_refl.
  - destruct (N.eqb_spec c sep) as [->|_]; [exfalso; apply H; by left|].
    rewrite IH; [done|]. intros ?. apply H. by right.
Qed.

Lemma split_head_split (sep : N) (s : str) : head (split sep s) = Some (split_head sep s).
Proof.
  induction s as [|c s IH]; [done|]. simpl.
  destruct (N.eqb c sep); [done|].
  destruct (split sep s) as [|piece pieces]; [done|].
  simpl in *. by injection IH as ->.
Qed.

Lemma decode_unicode_repr (text : str) : decode_repr (unicode_repr text) = text.
Proof.
  unfold decode_repr.
  enough (tail (split (chr "u") (unicode_repr text)) = format_04X <$> text) as ->.
  { rewrite <- list_fmap_compose. rewrite <- (list_fmap_id text) at 2.
    apply list_fmap_ext. intros i c _. apply parse_format_04X. }
  induction text as [|c text IH]; [done|].
  change (unicode_repr (c :: text)) with (chr "u" :: format_04X c ++ unicode_repr text).
  cbn [split]. rewrite N.eqb_refl. cbn [tail fmap list_fmap]. rewrite <- IH.
  destruct (unicode_repr_starts text) as [-> | [r ->]].
  - rewrite app_nil_r. apply split_free, format_04X_free. by left.
  - rewrite split_app_sep by (apply format_04X_free; by left).
    cbn [split]. by rewrite N.eqb_refl.
Qed.

Lemma format_04X_digits (n : N) :
  Forall (fun c => c ∈ lit "0123456789ABCDEF") (format_04X n).
Proof.
  unfold format_04X, format_X. apply Forall_app. split.
  - apply Forall_replicate. by left.
  - apply Forall_fmap, Forall_forall. intros d _. simpl.
    destruct d; compute_done.
Qed.

(** X1. A code point is formatted as at least four characters, all of them
    digits or the capitals A to F, and reading them as hexadecimal gives the
    code point back. *)
Theorem format_04X_round_trip (n : N) :
  parse_hex (format_04X n) = n /\
  (4 <= length (format_04X n))%nat /\
  Forall (fun c => c ∈ lit "0123456789ABCDEF") (format_04X n).
Proof.
  split; [apply parse_format_04X|]. split; [|apply format_04X_digits].
  unfold format_04X. rewrite length_app, length_replicate. lia.
Qed.

(** X2. The text is read back from its identifier, whatever precedes the
    identifier and whatever transliteration and slug went into it: identifiers
    of different texts differ, also across the prefixes of the aggregation. *)
Theorem decode_id_compute_id (unidecode : str -> str) (slug : str -> option str)
    (head text : str) :
  (forall id, compute_id unidecode slug text = Ok id -> decode_id (head ++ id) = text) /\
  forall head' text' id id',
    compute_id unidecode slug text = Ok id -> compute_id unidecode slug text' = Ok id' ->
    head ++ id = head' ++ id' -> text = text'.
Proof.
  assert (forall h t id, compute_id unidecode slug t = Ok id -> decode_id (h ++ id) = t)
    as D.
  { intros h t id H. unfold decode_id.
    by rewrite (fingerprint_half_compute_id _ _ _ _ _ H), decode_unicode_repr. }
  split; [intros id; apply D|]. intros head' text' id id' H H' E.
  by rewrite <- (D head text id H), E, (D head' text' id' H').
Qed.

(** ** The normalizer, case by case *)

Lemma normalize_grapheme_raises_cases (nfc : str -> str) (text : str) (e : exn) :
  normalize_grapheme nfc text = Raise e <->
  e = IndexError /\ (nfc text = [] \/ nfc text = lit "()").
Proof.
  split.
  - intros H.
    destruct (decide (nfc text = [])) as [E|Hne].
    { unfold normalize_grapheme in H. rewrite E in H. simpl in H.
      injection H as <-. auto. }
    destruct (decide (nfc text = lit "()")) as [E|Hpair].
    { rewrite normalize_grapheme_raises_on_pair in H by done.
      injection H as <-. auto. }
    destruct (normalize_grapheme_returns nfc text Hne Hpair) as [t Ht]. congruence.
  - intros [-> [E | E]].
    + unfold normalize_grapheme. by rewrite E.
    + by apply normalize_grapheme_raises_on_pair.
Qed.

(** X3. The normalizer raises exactly when the composed text is empty or is
    the parenthesis pair, and what it raises is [IndexError]. *)
Theorem normalize_grapheme_raises_iff (nfc : str -> str) (text : str) (e : exn) :
  normalize_grapheme nfc text = Raise e <->
  e = IndexError /\ (nfc text = [] \/ nfc text = lit "()").
Proof. apply normalize_grapheme_raises_cases. Qed.

(** X4. The normalizer returns the empty text exactly when the composed text
    is the bracket pair, bare or in parentheses. *)
Theorem normalize_grapheme_empty_iff (nfc : str -> str) (text : str) :
  normalize_grapheme nfc text = Ok [] <->
  nfc text = lit "[]" \/ nfc text = lit "([])".
Proof. apply normalize_grapheme_empty. Qed.

(** X5. What the normalizer returns is the composed text without at most one
    pair of parentheses and, inside them, at most one pair of brackets;
    nothing else is removed or changed. *)
Theorem normalize_grapheme_strips_delimiters (nfc : str -> str) (text t : str) :
  normalize_grapheme nfc text = Ok t ->
  nfc text = t \/ nfc text = lit "(" ++ t ++ lit ")" \/
  nfc text = lit "[" ++ t ++ lit "]" \/ nfc text = lit "([" ++ t ++ lit "])".
Proof.
  unfold normalize_grapheme. intros H.
  apply bind_Ok in H as (b1 & H1 & H). apply bind_Ok in H as (b2 & H2 & [= H]).
  destruct b1, b2; subst t.
  - pose proof (bounded_by_true _ _ _ paren_ne H1) as E1.
    pose proof (bounded_by_true _ _ _ bracket_ne H2) as E2.
    right. right. right. rewrite E1 at 1. rewrite E2 at 1.
    simpl. by rewrite <- app_assoc.
  - pose proof (bounded_by_true _ _ _ paren_ne H1) as E1. right. left. exact E1.
  - pose proof (bounded_by_true _ _ _ bracket_ne H2) as E2. right. right. left. exact E2.
  - by left.
Qed.

(** ["([a])"] loses both pairs. *)
Lemma normalize_grapheme_strips_delimiters_witness :
  nfc_ascii (lit "([a])") = lit "a" \/
  nfc_ascii (lit "([a])") = lit "(" ++ lit "a" ++ lit ")" \/
  nfc_ascii (lit "([a])") = lit "[" ++ lit "a" ++ lit "]" \/
  nfc_ascii (lit "([a])") = lit "([" ++ lit "a" ++ lit "])".
Proof.
  apply (normalize_grapheme_strips_delimiters nfc_ascii (lit "([a])") (lit "a")).
  reflexivity.
Defined.

(** ** The marks and the allophone groups *)

(** X6. Marking raises exactly on the empty raw segment, with [IndexError];
    otherwise it keeps the language, the source and the inventory of the
    entry, and the raw segment either as it is (flag false) or without its
    first and last character (flag true). *)
Theorem mark_marginal_raises_iff (entry : Entry) (e : exn) :
  (mark_marginal entry = Raise e <-> e = IndexError /\ segment_raw entry = []) /\
  forall marked, mark_marginal entry = Ok marked ->
    lang_id marked = lang_id entry /\ source marked = source entry /\
    inv_id marked = inv_id entry /\
    (marginal marked = Some (lit "False") /\ segment_raw marked = segment_raw entry \/
     marginal marked = Some (lit "True") /\
     segment_raw marked = strip_ends (segment_raw entry)).
Proof.
  pose proof (mark_marginal_cases entry) as C. split.
  - split.
    + intros H. rewrite H in C. exact C.
    + intros [-> E]. unfold mark_marginal. by rewrite E.
  - intros marked H. rewrite H in C.
    destruct C as (? & ? & ? & [(_ & ? & ?) | (_ & _ & ? & ?)]); auto 10.
Qed.

Lemma split_head_prefix (sep : N) (s : str) : split_head sep s `prefix_of` s.
Proof.
  induction s as [|c s IH]; [done|]. simpl.
  destruct (N.eqb c sep); [apply prefix_nil|by apply prefix_cons].
Qed.

Lemma split_head_free (sep : N) (s : str) : sep ∉ split_head sep s.
Proof.
  induction s as [|c s IH]; simpl; [apply not_elem_of_nil|].
  destruct (N.eqb_spec c sep) as [->|Hne]; [apply not_elem_of_nil|].
  rewrite not_elem_of_cons. split; [congruence|done].
Qed.

Lemma contains_elem_of (sep : N) (s : str) : contains sep s = true <-> sep ∈ s.
Proof.
  unfold contains. rewrite existsb_exists. split.
  - intros (c & Hc & E). apply N.eqb_eq in E as <-. by apply list_elem_of_In.
  - intros H. exists sep. split; [by apply list_elem_of_In|apply N.eqb_refl].
Qed.

Lemma first_allophone_cases (entry : Entry) :
  (3 <= length (segment_raw entry))%nat /\ chr "|" ∈ segment_raw entry /\
  first_allophone entry
  = {| lang_id := lang_id entry; source := source entry; inv_id := inv_id entry;
       segment_raw := split_head (chr "|") (segment_raw entry);
       marginal := marginal entry |}
  \/
  ((3 <= length (segment_raw entry))%nat -> chr "|" ∉ segment_raw entry) /\
  first_allophone entry = entry.
Proof.
  unfold first_allophone.
  destruct (Nat.leb_spec 3 (length (segment_raw entry))) as [L|L];
    destruct (contains (chr "|") (segment_raw entry)) eqn:C; cbn [andb].
  - left. by apply contains_elem_of in C.
  - right. split; [|done]. intros _ H. apply contains_elem_of in H. congruence.
  - right. split; [lia|done].
  - right. split; [lia|done].
Qed.

(** X7. Taking the first allophone keeps a prefix of the raw segment and
    every other field, leaves no bar in a segment of three characters or
    more, and changes nothing when applied again. *)
Theorem first_allophone_prefix (entry : Entry) :
  segment_raw (first_allophone entry) `prefix_of` segment_raw entry /\
  lang_id (first_allophone entry) = lang_id entry /\
  source (first_allophone entry) = source entry /\
  inv_id (first_allophone entry) = inv_id entry /\
  marginal (first_allophone entry) = marginal entry /\
  ((3 <= length (segment_raw entry))%nat ->
   chr "|" ∉ segment_raw (first_allophone entry)) /\
  first_allophone (first_allophone entry) = first_allophone entry.
Proof.
  destruct (first_allophone_cases entry) as [(L & C & ->) | [H E]]; rewrite ?E, ?E.
  - cbn [segment_raw lang_id source inv_id marginal].
    split; [apply split_head_prefix|]. do 4 (split; [reflexivity|]).
    split; [intros _; apply split_head_free|].
    match goal with |- first_allophone ?e = _ =>
      destruct (first_allophone_cases e) as [(_ & C' & _) | [_ E]]; [|exact E]
    end.
    cbn [segment_raw] in C'. by apply split_head_free in C'.
  - split; [reflexivity|]. do 4 (split; [reflexivity|]).
    split; [exact H|reflexivity].
Qed.

(** The group ["p|b|m"] keeps ["p"]. *)
Lemma first_allophone_prefix_witness :
  chr "|" ∉ segment_raw
              (first_allophone (sample_entry (lit "AA") (lit "A") (lit "p|b|m") None)).
Proof.
  apply (first_allophone_prefix (sample_entry (lit "AA") (lit "A") (lit "p|b|m") None)).
  simpl. lia.
Defined.

(** ** How a turn of the loop fails *)

(** X8. A turn of the loop raises [IndexError] exactly when the raw segment is
    empty or the effective segment (after the marks and the allophone rule)
    has an empty composed form or is the parenthesis pair.  When the text is
    normalized it raises [AssertionError] exactly when the slug of the
    transliterated text fails its assertion, or when the inventory has a
    language and the slug of the source fails its assertion; and [KeyError]
    exactly when the identifier is computed and the inventory of the entry is
    [None] or has no language.  It raises nothing else. *)
Theorem aggregate_entry_raises_iff (nfc unidecode : str -> str) (slug : str -> option str)
    (bipa : str -> Sound) (phoible_lang : gmap str str)
    (st : agg_state) (entry : Entry) (e : exn) :
  aggregate_entry nfc unidecode slug bipa phoible_lang st entry = Raise e <->
  e = IndexError /\
    (segment_raw entry = [] \/
     exists marked, mark_marginal entry = Ok marked /\
       (nfc (segment_raw (first_allophone marked)) = [] \/
        nfc (segment_raw (first_allophone marked)) = lit "()")) \/
  exists marked normalized, mark_marginal entry = Ok marked /\
    normalize_grapheme nfc (segment_raw (first_allophone marked)) = Ok normalized /\
    (e = AssertionError /\ slug (unidecode normalized) = None \/
     e = KeyError /\ is_Some (slug (unidecode normalized)) /\
       (forall inventory, inv_id entry = Some inventory ->
          phoible_lang !! inventory = None) \/
     e = AssertionError /\ is_Some (slug (unidecode normalized)) /\
       (exists inventory, inv_id entry = Some inventory /\
          is_Some (phoible_lang !! inventory)) /\
       slug (source entry) = None).
Proof.
  unfold aggregate_entry.
  pose proof (mark_marginal_cases entry) as C.
  destruct (mark_marginal entry) as [m|x] eqn:Hm; cbn [bind]; cycle 1.
  { destruct C as [-> Hraw]. split.
    - intros [= <-]. left. auto.
    - by intros [(-> & _) | (m' & n' & [=] & _)]. }
  assert (inv_id (first_allophone m) = inv_id entry /\
          source (first_allophone m) = source entry) as [Hi Hs].
  { destruct C as (_ & <- & <- & _). apply first_allophone_keeps. }
  assert (segment_raw entry <> []) as Hraw.
  { intros E. unfold mark_marginal in Hm. by rewrite E in Hm. }
  destruct (normalize_grapheme nfc (segment_raw (first_allophone m)))
    as [n|x] eqn:Hn; cbn [bind]; cycle 1.
  { apply normalize_grapheme_raises_cases in Hn as Hx. destruct Hx as [-> Hx]. split.
    - intros [= <-]. left. split; [done|]. right. by exists m.
    - intros [(-> & _) | (m' & n' & [= <-] & Hn' & _)]; [done|congruence]. }
  assert (~ (segment_raw entry = [] \/
             exists marked, Ok m = Ok marked /\
               (nfc (segment_raw (first_allophone marked)) = [] \/
                nfc (segment_raw (first_allophone marked)) = lit "()"))) as Hno.
  { intros [? | (m' & [= <-] & Hbad)]; [done|].
    pose proof (proj2 (normalize_grapheme_raises_cases nfc _ IndexError)
                  (conj eq_refl Hbad)). congruence. }
  assert (forall P : str -> Prop,
            (exists marked normalized, Ok m = Ok marked /\
               normalize_grapheme nfc (segment_raw (first_allophone marked))
               = Ok normalized /\ P normalized) <-> P n) as Hex.
  { intros P. split.
    - intros (m' & n' & [= <-] & Hn' & H). rewrite Hn in Hn'. by injection Hn' as <-.
    - intros H. by exists m, n. }
  rewrite (Hex (fun normalized => _ \/ _ \/ _)).
  destruct (canonicalize unidecode slug bipa n) as [p|x] eqn:Hp; cbn [bind]; cycle 1.
  { apply canonicalize_Raise in Hp as [-> Hp]. rewrite Hp. split.
    - intros [= <-]. right. by left.
    - intros [[_ H] | [[-> _] | [(_ & [? [=]] & _) | (-> & _)]]]; done. }
  apply canonicalize_Ok in Hp as (label & Hlab & _). rewrite Hlab, Hi, Hs.
  destruct (inv_id entry) as [i|] eqn:Ei; simpl; cycle 1.
  { split.
    - intros [= <-]. right. right. left. split; [done|]. split; [by eexists|]. done.
    - intros [[_ H] | [[_ [=]] | [(-> & _) | (_ & _ & (? & [=] & _) & _)]]]; done. }
  unfold getitem. destruct (phoible_lang !! i) as [l|] eqn:El; cbn [bind]; cycle 1.
  { split.
    - intros [= <-]. right. right. left. split; [done|]. split; [by eexists|].
      by intros ? [= <-].
    - intros [[_ H] | [[_ [=]] | [(-> & _) | (_ & _ & (? & [= <-] & [? ?]) & _)]]];
        [done|done|congruence]. }
  unfold defaultdict_getitem.
  destruct (slug (source entry)) as [c|] eqn:Ec.
  - split; [destruct (source_map st !! i); discriminate|].
    intros [[_ H] | [[_ [=]] | [(_ & _ & H) | (_ & _ & _ & [=])]]]; [done|].
    specialize (H i eq_refl). congruence.
  - split.
    + intros H. assert (e = AssertionError) as ->
        by (destruct (source_map st !! i); by injection H as <-).
      right. right. right. split; [done|]. split; [by eexists|].
      split; [|done]. exists i. split; [done|by eexists].
    + intros [[_ H] | [[_ [=]] | [(_ & _ & H) | (-> & _)]]]; [done| |].
      * specialize (H i eq_refl). congruence.
      * by destruct (source_map st !! i).
Qed.

(** A control character as segment, of a known and of an unknown inventory:
    the identifier is computed before the language is looked up. *)
Example aggregate_entry_control_character :
  sample_step sample_state (sample_entry (lit "AA") (lit "A") [1%N] None)
  = Raise AssertionError /\
  sample_step sample_state (sample_entry (lit "AA") (lit "Z") [1%N] None)
  = Raise AssertionError /\
  sample_step sample_state (sample_entry (lit "AA") (lit "Z") (lit "a") None)
  = Raise KeyError.
Proof. by repeat split. Qed.

(** X9. The flag a reader stored under ["marginal"] has no influence on what
    a run hands to the writer: rows and segment table are the same whatever
    the flags of the entries are. *)
Theorem aggregate_ignores_flags (nfc unidecode : str -> str) (slug : str -> option str)
    (bipa : str -> Sound) (phoible_lang : gmap str str)
    (set_order : set_iteration ParameterTuple)
    (bibliography : gmap str (list str)) (flag_of : Entry -> option str)
    (data : list Entry) :
  aggregate nfc unidecode slug bipa phoible_lang set_order bibliography
    ((fun entry => with_marginal (flag_of entry) entry) <$> data)
  = aggregate nfc unidecode slug bipa phoible_lang set_order bibliography data.
Proof.
  unfold aggregate. f_equal.
  generalize (mkAgg [] [] 1 bibliography).
  induction data as [|entry data IH]; intros st; [done|].
  cbn [fmap list_fmap for_each].
  change (aggregate_entry nfc unidecode slug bipa phoible_lang st
            (with_marginal (flag_of entry) entry))
    with (aggregate_entry nfc unidecode slug bipa phoible_lang st entry).
  destruct (aggregate_entry nfc unidecode slug bipa phoible_lang st entry); [|done].
  cbn [bind]. apply IH.
Qed.

(** ** The bibliography, key by key *)

Lemma build_source_map_fold (rows : list (str * str)) (m : gmap str (list str))
    (inventory : str) :
  default []
    (foldl (fun m row => <[row.1 := default [] (m !! row.1) ++ [row.2]]> m) m rows
       !! inventory)
  = default [] (m !! inventory)
    ++ (filter (fun row => row.1 = inventory) rows).*2.
Proof.
  revert m. induction rows as [|[k b] rows IH]; intros m; simpl.
  - by rewrite app_nil_r.
  - rewrite IH. rewrite filter_cons. simpl.
    destruct (decide (k = inventory)) as [->|Hne].
    + rewrite lookup_insert_eq. simpl. by rewrite <- app_assoc.
    + by rewrite lookup_insert_ne.
Qed.

(** X10. The bibliography holds, for every inventory, the keys of its rows in
    the order of the file, repetitions included, and holds an entry for an
    inventory exactly when the file has a row for it. *)
Theorem build_source_map_lookup (rows : list (str * str)) (inventory : str) :
  default [] (build_source_map rows !! inventory)
  = (filter (fun row => row.1 = inventory) rows).*2 /\
  (is_Some (build_source_map rows !! inventory) <-> inventory ∈ rows.*1).
Proof.
  split.
  - unfold build_source_map. by rewrite build_source_map_fold, lookup_empty.
  - rewrite <- not_eq_None_Some, build_source_map_None.
    destruct (decide (inventory ∈ rows.*1)); tauto.
Qed.

(** ** The row-inheritance reader: failures and entries *)

Lemma common_row_cases (source_name segment_field : str) (st : common_state) (row : Row) :
  has_columns segment_field row /\
    (exists st', common_row source_name segment_field st row = Ok st') \/
  ~ has_columns segment_field row /\
    common_row source_name segment_field st row = Raise KeyError.
Proof.
  unfold has_columns, common_row, getitem.
  destruct (row !! lit "InventoryID") as [i|]; cbn [bind];
    [|right; split; [intros ([? [=]] & _)|done]].
  destruct (row !! lit "LanguageName") as [l|]; cbn [bind];
    [|right; split; [intros (_ & [? [=]] & _)|done]].
  destruct (row !! segment_field) as [g|]; cbn [bind];
    [|right; split; [intros (_ & _ & [? [=]])|done]].
  left. split; [by repeat split|by eexists].
Qed.

Lemma common_rows_cases (source_name segment_field : str) (rows : list Row)
    (st : common_state) :
  Forall (has_columns segment_field) rows /\
    (exists st', for_each (common_row source_name segment_field) rows st = Ok st') \/
  Exists (fun row => ~ has_columns segment_field row) rows /\
    for_each (common_row source_name segment_field) rows st = Raise KeyError.
Proof.
  revert st. induction rows as [|row rows IH]; intros st; simpl.
  - left. split; [constructor|by eexists].
  - destruct (common_row_cases source_name segment_field st row)
      as [(Hrow & st1 & ->) | (Hrow & ->)]; cbn [bind].
    + destruct (IH st1) as [(Hrows & Hok) | (Hrows & Hbad)].
      * left. split; [by constructor|done].
      * right. split; [by apply Exists_cons_tl|done].
    + right. split; [by apply Exists_cons_hd|done].
Qed.


(** A file without a first line, and a row without the segment column. *)
Example read_phoible_common_no_header :
  read_phoible_common None [] (lit "AA") = Raise TypeError /\
  read_phoible_common (Some [lit "InventoryID"; lit "LanguageName"])
    [list_to_map [(lit "InventoryID", Some (lit "A")); (lit "LanguageName", Some [])]]
    (lit "AA") = Raise KeyError.
Proof. by split. Qed.

Lemma mark_marginal_nonempty (entry : Entry) :
  segment_raw entry <> [] -> exists marked, mark_marginal entry = Ok marked.
Proof.
  intros H. pose proof (mark_marginal_cases entry) as C.
  destruct (mark_marginal entry) as [m|x]; [by eexists|]. by destruct C.
Qed.

Lemma carried_entry_snoc (source_name segment_field : str) (seen : list Row) (row : Row) :
  carried_entry source_name segment_field (seen ++ [row])
  = match default None (row !! segment_field) with
    | Some (c :: seg) =>
        Some {| lang_id := source_name ++ lit "_" ++
                             fmt (carried (column (lit "LanguageName") (seen ++ [row])));
                source := lit "PHOIBLE_" ++ source_name;
                inv_id := carried (column (lit "InventoryID") (seen ++ [row]));
                segment_raw := c :: seg;
                marginal := None |}
    | _ => None
    end.
Proof. unfold carried_entry. by rewrite last_snoc. Qed.

Lemma carried_entries_shape (source_name segment_field : str) (rows : list Row) :
  length (carried_entries source_name segment_field rows)
  = length (filter (fun row : Row => truthy (default None (row !! segment_field))) rows) /\
  Forall (fun entry =>
            segment_raw entry <> [] /\ marginal entry = None /\
            source entry = lit "PHOIBLE_" ++ source_name)
    (carried_entries source_name segment_field rows).
Proof.
  induction rows as [|row rows [IHl IHf]] using rev_ind; [by split|].
  rewrite carried_entries_snoc, carried_entry_snoc, filter_app, !length_app, filter_cons.
  rewrite Forall_app, IHl.
  destruct (default None (row !! segment_field)) as [[|c seg]|]; simpl;
    try case_decide; try done; split; try done; by repeat constructor.
Qed.

(** X12. When the row-inheritance reader returns, it returns one entry per row
    with a non-empty segment cell; every entry has a non-empty raw segment,
    no ["marginal"] key and the source ["PHOIBLE_"] followed by the source
    name, and the marking step of the aggregation does not raise on it. *)
Theorem read_phoible_common_entries
    (fieldnames : list str) (rows : list Row) (source_name : str) (es : list Entry) :
  read_phoible_common (Some fieldnames) rows source_name = Ok es ->
  length es
  = length (filter (fun row : Row =>
                      truthy (default None (row !! segment_field_of fieldnames))) rows) /\
  Forall (fun entry =>
            segment_raw entry <> [] /\ marginal entry = None /\
            source entry = lit "PHOIBLE_" ++ source_name /\
            exists marked, mark_marginal entry = Ok marked) es.
Proof.
  intros H.
  assert (es = carried_entries source_name (segment_field_of fieldnames) rows) as ->.
  { unfold read_phoible_common in H.
    destruct (common_rows_cases source_name (segment_field_of fieldnames) rows
                (mkCommon None None [])) as [(Hall & _) | (_ & Hbad)];
      [|by rewrite Hbad in H].
    rewrite Forall_forall in Hall.
    change (mkCommon None None [])
      with (common_after source_name (segment_field_of fieldnames) []) in H.
    rewrite common_rows_after in H by done. by injection H as <-. }
  destruct (carried_entries_shape source_name (segment_field_of fieldnames) rows)
    as [Hl Hf].
  split; [done|]. eapply Forall_impl; [exact Hf|].
  intros entry (Hne & Hm & Hs). repeat split; try done.
  by apply mark_marginal_nonempty.
Qed.

(** Three sample rows, two of them with a segment. *)
Lemma read_phoible_common_entries_witness :
  exists es,
    read_phoible_common (Some sample_fieldnames) sample_rows (lit "AA") = Ok es /\
    length es = 2%nat /\
    Forall (fun entry => exists marked, mark_marginal entry = Ok marked) es.
Proof.
  destruct (read_phoible_common_entries sample_fieldnames sample_rows (lit "AA") _ eq_refl)
    as [Hl Hf].
  eexists. split; [reflexivity|]. split; [exact Hl|].
  eapply Forall_impl; [exact Hf|]. by intros entry (_ & _ & _ & H).
Defined.

(** ** A run as a map over its entries: the tables *)

Lemma chr_inj (a b : ascii) : chr a = chr b -> a = b.
Proof.
  intros E. rewrite <- (ascii_N_embedding a), <- (ascii_N_embedding b).
  unfold chr in E. by rewrite E.
Qed.

Lemma lit_inj (s1 s2 : string) : lit s1 = lit s2 -> s1 = s2.
Proof.
  unfold lit. intros E.
  rewrite <- (string_of_list_ascii_of_string s1), <- (string_of_list_ascii_of_string s2).
  f_equal. revert E.
  generalize (list_ascii_of_string s1) (list_ascii_of_string s2).
  induction l as [|a l IH]; intros [|b k] E; try done.
  injection E as E1 E2. apply chr_inj in E1 as ->. by rewrite (IH k).
Qed.

Lemma str_of_N_inj (n m : N) : str_of_N n = str_of_N m -> n = m.
Proof.
  unfold str_of_N. intros E%lit_inj.
  apply DecimalN.Unsigned.to_uint_inj.
  assert (Some (N.to_uint n) = Some (N.to_uint m)) as [= ->]; [|done].
  by rewrite <- !NilEmpty.usu, E.
Qed.

Lemma segment_of_name (p : ParameterTuple) :
  segment_of p !! lit "Name" = Some (normalized_of p).
Proof. by destruct p as [[[a b] c] d]. Qed.

(** X13. A run completes exactly when the turn of every entry does: when its
    marks, its normalization, its identifier, the language of its inventory
    and the slug of its source are there.  Its rows are then the rows of the
    turns, in the order of the entries and numbered from 1, and its segment
    table is the set of their tuples, in the order of the set: a row depends
    on its entry, its position and the bibliography, on nothing else. *)
Theorem aggregate_closed_form (nfc unidecode : str -> str) (slug : str -> option str)
    (bipa : str -> Sound) (phoible_lang : gmap str str)
    (set_order : set_iteration ParameterTuple)
    (bibliography : gmap str (list str)) (data : list Entry)
    (rows : list Value) (segments : list Segment) :
  aggregate nfc unidecode slug bipa phoible_lang set_order bibliography data
  = Ok (rows, segments) <->
  exists turns,
    mapM (turn_of nfc unidecode slug bipa phoible_lang) data = Some turns /\
    rows = imap (turn_row bibliography 1) turns /\
    segments = segment_of <$> iter_set set_order (turn_parameter <$> turns).
Proof.
  pose proof (aggregate_turns nfc unidecode slug bipa phoible_lang set_order
                bibliography data) as H.
  destruct (mapM (turn_of nfc unidecode slug bipa phoible_lang) data) as [turns|].
  - rewrite H. split.
    + intros [= <- <-]. by exists turns.
    + by intros (turns' & [= <-] & -> & ->).
  - destruct H as [e ->]. split; [done|]. by intros (? & [=] & _).
Qed.

(** X14. The ids of the rows of a run are the decimal numbers 1, 2, ... in
    the order of the entries, one per entry, and no two rows share an id. *)
Theorem row_ids_count_from_one (nfc unidecode : str -> str) (slug : str -> option str)
    (bipa : str -> Sound) (phoible_lang : gmap str str)
    (set_order : set_iteration ParameterTuple)
    (bibliography : gmap str (list str)) (data : list Entry)
    (rows : list Value) (segments : list Segment) :
  aggregate nfc unidecode slug bipa phoible_lang set_order bibliography data
  = Ok (rows, segments) ->
  (fun v : Value => v !! lit "ID") <$> rows
  = (fun k => Some (Str (str_of_N (N.of_nat (S k))))) <$> seq 0 (length data) /\
  NoDup ((fun v : Value => v !! lit "ID") <$> rows).
Proof.
  intros H. apply aggregate_Ok_turns in H as (turns & M & -> & _).
  assert ((fun v : Value => v !! lit "ID") <$> imap (turn_row bibliography 1) turns
          = (fun k => Some (Str (str_of_N (N.of_nat (S k))))) <$> seq 0 (length data)) as E.
  { rewrite fmap_imap, (length_mapM _ _ _ M), <- imap_seq_0.
    apply imap_ext. intros k t _. simpl. unfold turn_row.
    replace (1 + N.of_nat k)%N with (N.of_nat (S k)) by lia.
    row_lookup. }
  split; [exact E|]. rewrite E.
  apply NoDup_fmap_2; [|apply NoDup_seq].
  intros j k [= E']. apply str_of_N_inj in E'. lia.
Qed.

(** Three entries, the ids 1, 2 and 3. *)
Lemma row_ids_count_from_one_witness :
  exists rows segments,
    aggregate nfc_ascii unidecode_ascii slug_ascii bipa_sample sample_phoible_lang
      set_order_sample
      (build_source_map sample_bibtex_rows) [sample_marked; sample_flagged; sample_plain]
    = Ok (rows, segments) /\
    (fun v : Value => v !! lit "ID") <$> rows
    = [Some (Str (lit "1")); Some (Str (lit "2")); Some (Str (lit "3"))].
Proof.
  destruct (row_ids_count_from_one
              nfc_ascii unidecode_ascii slug_ascii bipa_sample sample_phoible_lang
              set_order_sample (build_source_map sample_bibtex_rows)
              [sample_marked; sample_flagged; sample_plain] _ _ eq_refl) as [H _].
  eexists _, _. split; [reflexivity|]. exact H.
Defined.

(** X15. In a run that completes, the parameter id of every row is the id of
    exactly one dict of the segment table, whose name is the normalization of
    the value of the row; and every dict of the table is referred to by some
    row. *)
Theorem rows_refer_to_segments (nfc unidecode : str -> str) (slug : str -> option str)
    (bipa : str -> Sound) (phoible_lang : gmap str str)
    (set_order : set_iteration ParameterTuple)
    (bibliography : gmap str (list str)) (data : list Entry)
    (rows : list Value) (segments : list Segment) :
  aggregate nfc unidecode slug bipa phoible_lang set_order bibliography data
  = Ok (rows, segments) ->
  (forall v, v ∈ rows ->
     exists s par_id value name,
       s ∈ segments /\
       v !! lit "Parameter_ID" = Some (Str par_id) /\ s !! lit "ID" = Some par_id /\
       v !! lit "Value" = Some (Str value) /\ s !! lit "Name" = Some name /\
       normalize_grapheme nfc value = Ok name /\
       forall s', s' ∈ segments -> s' !! lit "ID" = Some par_id -> s' = s) /\
  (forall s, s ∈ segments ->
     exists v par_id, v ∈ rows /\
       v !! lit "Parameter_ID" = Some (Str par_id) /\ s !! lit "ID" = Some par_id).
Proof.
  intros H. apply aggregate_Ok_turns in H as (turns & M & -> & ->).
  destruct (build_segments_spec set_order (turn_parameter <$> turns)) as [_ Hin].
  assert (forall t, t ∈ turns ->
            normalize_grapheme nfc (segment_raw (turn_entry t)) = Ok (turn_text t) /\
            canonicalize unidecode slug bipa (turn_text t) = Ok (turn_parameter t)) as Hturn.
  { intros t Ht. destruct (mapM_turns _ _ _ _ _ _ _ _ M Ht) as (entry & _ & Hturn).
    apply turn_of_Some in Hturn as (m & _ & He & Hn & Hp & _). by rewrite He. }
  split.
  - intros v Hv. apply elem_of_lookup_imap in Hv as (k & t & -> & Hk).
    apply list_elem_of_lookup_2 in Hk as Ht.
    destruct (Hturn t Ht) as [Hn Hp].
    exists (segment_of (turn_parameter t)), (par_id_of (turn_parameter t)),
      (segment_raw (turn_entry t)), (turn_text t).
    split; [apply Hin; exists (turn_parameter t); split; [|done];
            apply list_elem_of_fmap; by exists t|].
    split; [row_lookup|]. split; [apply segment_of_id|].
    split; [row_lookup|].
    split; [by rewrite segment_of_name, (canonicalize_normalized _ _ _ _ _ Hp)|].
    split; [done|].
    intros s' Hs' Hid. apply Hin in Hs' as (p & Hp' & ->).
    apply list_elem_of_fmap in Hp' as (t' & -> & Ht').
    rewrite segment_of_id in Hid. injection Hid as Hid.
    destruct (Hturn t' Ht') as [_ Hp'].
    pose proof (canonicalize_par_id_inj _ _ _ _ _ _ _ Hp' Hp Hid) as E.
    rewrite E in Hp'. congruence.
  - intros s Hs. apply Hin in Hs as (p & Hp & ->).
    apply list_elem_of_fmap in Hp as (t & -> & Ht).
    apply list_elem_of_lookup in Ht as [k Hk].
    exists (turn_row bibliography 1 k t), (par_id_of (turn_parameter t)).
    split; [by apply (elem_of_lookup_imap_2 _ _ _ k)|].
    split; [row_lookup|apply segment_of_id].
Qed.

(** Every segment of the sample run is referred to. *)
Lemma rows_refer_to_segments_witness :
  exists rows segments,
    aggregate nfc_ascii unidecode_ascii slug_ascii bipa_sample sample_phoible_lang
      set_order_sample
      (build_source_map sample_bibtex_rows) [sample_marked; sample_flagged; sample_plain]
    = Ok (rows, segments) /\
    forall s, s ∈ segments ->
      exists v par_id, v ∈ rows /\
        v !! lit "Parameter_ID" = Some (Str par_id) /\ s !! lit "ID" = Some par_id.
Proof.
  destruct (rows_refer_to_segments
              nfc_ascii unidecode_ascii slug_ascii bipa_sample sample_phoible_lang
              set_order_sample (build_source_map sample_bibtex_rows)
              [sample_marked; sample_flagged; sample_plain] _ _ eq_refl) as [_ H].
  eexists _, _. split; [reflexivity|]. exact H.
Defined.

(** X16. In a run that completes, the row at a position belongs to the entry
    at that position: it has the inventory of the entry, the language the
    configuration gives for that inventory, the slug of the source of the
    entry, the citations the bibliography holds for the inventory, and as its
    value the raw segment after the marks and the allophone rule. *)
Theorem row_belongs_to_entry (nfc unidecode : str -> str) (slug : str -> option str)
    (bipa : str -> Sound) (phoible_lang : gmap str str)
    (set_order : set_iteration ParameterTuple)
    (bibliography : gmap str (list str)) (data : list Entry)
    (rows : list Value) (segments : list Segment) (k : nat) (entry : Entry) :
  aggregate nfc unidecode slug bipa phoible_lang set_order bibliography data
  = Ok (rows, segments) ->
  data !! k = Some entry ->
  exists v inventory language_id marked catalog,
    rows !! k = Some v /\
    inv_id entry = Some inventory /\ phoible_lang !! inventory = Some language_id /\
    mark_marginal entry = Ok marked /\ slug (source entry) = Some catalog /\
    v !! lit "Contribution_ID" = Some (Str inventory) /\
    v !! lit "Language_ID" = Some (Str language_id) /\
    v !! lit "Catalog" = Some (Str catalog) /\
    v !! lit "Source" = Some (StrList (default [] (bibliography !! inventory))) /\
    v !! lit "Value" = Some (Str (segment_raw (first_allophone marked))).
Proof.
  intros H Hk. apply aggregate_Ok_turns in H as (turns & M & -> & _).
  apply mapM_Some_1 in M.
  destruct (Forall2_lookup_l _ _ _ _ _ M Hk) as (t & Ht & Hturn).
  apply turn_of_Some in Hturn as (m & Hm & He & _ & _ & Hi & Hl & Hc).
  exists (turn_row bibliography 1 k t),
    (turn_inventory t), (turn_language t), m, (turn_catalog t).
  split; [by rewrite list_lookup_imap, Ht|].
  do 4 (split; [done|]). unfold turn_row.
  do 4 (split; [row_lookup|]).
  rewrite <- He. row_lookup.
Qed.

(** The second entry of the sample run, of inventory ["B"]. *)
Lemma row_belongs_to_entry_witness :
  exists v : Value,
    v !! lit "Contribution_ID" = Some (Str (lit "B")) /\
    v !! lit "Language_ID" = Some (Str (lit "B_l7")) /\
    v !! lit "Catalog" = Some (Str (lit "phoibleupsid")) /\
    v !! lit "Source" = Some (StrList []) /\
    v !! lit "Value" = Some (Str (lit "(a)")).
Proof.
  destruct (row_belongs_to_entry
              nfc_ascii unidecode_ascii slug_ascii bipa_sample sample_phoible_lang
              set_order_sample (build_source_map sample_bibtex_rows)
              [sample_marked; sample_flagged; sample_plain] _ _ 1 sample_flagged
              eq_refl eq_refl)
    as (v & i & l & m & c & _ & [= <-] & [= <-] & [= <-] & [= <-] & Hc & Hl & Hs & Hb & Hv).
  exists v. repeat split; assumption.
Defined.

(** X17. Entries added at the end of the data leave the rows of the entries
    before them as they were, and only add to the segment table: the run on
    the shorter data completes with the first rows of the longer run. *)
Theorem aggregate_prefix_stable (nfc unidecode : str -> str) (slug : str -> option str)
    (bipa : str -> Sound) (phoible_lang : gmap str str)
    (set_order : set_iteration ParameterTuple)
    (bibliography : gmap str (list str)) (data more : list Entry)
    (rows : list Value) (segments : list Segment) :
  aggregate nfc unidecode slug bipa phoible_lang set_order bibliography (data ++ more)
  = Ok (rows, segments) ->
  exists segments',
    aggregate nfc unidecode slug bipa phoible_lang set_order bibliography data
    = Ok (take (length data) rows, segments') /\
    forall s, s ∈ segments' -> s ∈ segments.
Proof.
  intros H. apply aggregate_Ok_turns in H as (turns & M & -> & ->).
  apply mapM_Some_1, Forall2_app_inv_l in M as (t1 & t2 & M1 & _ & ->).
  pose proof (Forall2_length _ _ _ M1) as L. apply mapM_Some_2 in M1.
  pose proof (aggregate_turns nfc unidecode slug bipa phoible_lang set_order
                bibliography data) as T1.
  rewrite M1 in T1. eexists. split.
  - rewrite T1. do 2 f_equal. rewrite imap_app, L.
    by rewrite take_app_length' by by rewrite length_imap.
  - intros s Hs. apply build_segments_spec in Hs as (p & Hp & ->).
    apply build_segments_spec. exists p. split; [|done].
    rewrite fmap_app. apply elem_of_app. by left.
Qed.

(** The sample run without its last entry. *)
Lemma aggregate_prefix_stable_witness :
  exists rows segments,
    aggregate nfc_ascii unidecode_ascii slug_ascii bipa_sample sample_phoible_lang
      set_order_sample
      (build_source_map sample_bibtex_rows) [sample_marked; sample_flagged]
    = Ok (rows, segments) /\ length rows = 2%nat.
Proof.
  destruct (aggregate_prefix_stable
              nfc_ascii unidecode_ascii slug_ascii bipa_sample sample_phoible_lang
              set_order_sample (build_source_map sample_bibtex_rows)
              [sample_marked; sample_flagged] [sample_plain] _ _ eq_refl)
    as (segments' & H & _).
  eexists _, _. split; [exact H|]. reflexivity.
Defined.

(** X18. The segment table does not depend on the order of the entries but
    for the order of its own dicts: a run on the same entries in another
    order completes as well, with as many rows and with a segment table that
    holds the same dicts, each once, whatever the orders are in which the two
    runs iterate their sets. *)
Theorem aggregate_segments_order (nfc unidecode : str -> str) (slug : str -> option str)
    (bipa : str -> Sound) (phoible_lang : gmap str str)
    (set_order set_order' : set_iteration ParameterTuple)
    (bibliography : gmap str (list str)) (data data' : list Entry)
    (rows : list Value) (segments : list Segment) :
  data ≡ₚ data' ->
  aggregate nfc unidecode slug bipa phoible_lang set_order bibliography data
  = Ok (rows, segments) ->
  exists rows' segments',
    aggregate nfc unidecode slug bipa phoible_lang set_order' bibliography data'
    = Ok (rows', segments') /\
    length rows' = length rows /\ segments' ≡ₚ segments.
Proof.
  intros Hperm H. apply aggregate_Ok_turns in H as (turns & M & -> & ->).
  assert (is_Some (mapM (turn_of nfc unidecode slug bipa phoible_lang) data'))
    as [turns' M'].
  { apply mapM_is_Some. rewrite <- Hperm. apply mapM_is_Some. by eexists. }
  pose proof (aggregate_turns nfc unidecode slug bipa phoible_lang set_order'
                bibliography data') as T'.
  rewrite M' in T'. eexists _, _. split; [exact T'|].
  assert (turns' ≡ₚ turns) as Ht.
  { rewrite <- (mapM_omap _ _ _ M), <- (mapM_omap _ _ _ M'). by rewrite Hperm. }
  split.
  - by rewrite !length_imap, Ht.
  - destruct (build_segments_spec set_order (turn_parameter <$> turns)) as [Hnd Hin].
    destruct (build_segments_spec set_order' (turn_parameter <$> turns')) as [Hnd' Hin'].
    apply NoDup_Permutation; [done|done|].
    intros s. rewrite Hin, Hin'. by setoid_rewrite Ht.
Qed.

(** The sample run backwards. *)
Lemma aggregate_segments_order_witness :
  exists rows rows' segments segments',
    aggregate nfc_ascii unidecode_ascii slug_ascii bipa_sample sample_phoible_lang
      set_order_sample
      (build_source_map sample_bibtex_rows) [sample_marked; sample_flagged]
    = Ok (rows, segments) /\
    aggregate nfc_ascii unidecode_ascii slug_ascii bipa_sample sample_phoible_lang
      set_order_sample
      (build_source_map sample_bibtex_rows) [sample_flagged; sample_marked]
    = Ok (rows', segments') /\
    segments' ≡ₚ segments.
Proof.
  destruct (aggregate_segments_order
              nfc_ascii unidecode_ascii slug_ascii bipa_sample sample_phoible_lang
              set_order_sample set_order_sample (build_source_map sample_bibtex_rows)
              [sample_marked; sample_flagged] [sample_flagged; sample_marked] _ _
              (perm_swap _ _ []) eq_refl)
    as (rows' & segments' & H & _ & Hp).
  eexists _, rows', _, segments'. split; [reflexivity|]. split; [exact H|exact Hp].
Defined.

(** ** The matrix readers *)

(** A loop that appends to a list and raises one exception. *)
Lemma for_each_append {X E : Type} (body : list E -> X -> result (list E))
    (ok : X -> Prop) (out : X -> list E) (err : exn) (xs : list X) (acc : list E) :
  (forall acc x, x ∈ xs ->
     ok x /\ body acc x = Ok (acc ++ out x) \/ ~ ok x /\ body acc x = Raise err) ->
  Forall ok xs /\ for_each body xs acc = Ok (acc ++ xs ≫= out) \/
  ~ Forall ok xs /\ for_each body xs acc = Raise err.
Proof.
  revert acc. induction xs as [|x xs IH]; intros acc H.
  - left. split; [constructor|]. simpl. by rewrite app_nil_r.
  - simpl. destruct (H acc x) as [[Hx ->] | [Hx ->]]; [by left| |]; cbn [bind].
    + destruct (IH (acc ++ out x)) as [[Hxs ->] | [Hxs ->]].
      * intros acc' y Hy. apply H. by right.
      * left. split; [by constructor|]. by rewrite <- app_assoc.
      * right. split; [|done]. intros Hall. apply Hxs. by inversion Hall.
    + right. split; [|done]. intros Hall. apply Hx. by inversion Hall.
Qed.

Lemma dict_zip_snoc (fields row : list str) :
  forall f, dict_zip fields row !! f
            = snd <$> last (filter (fun kv => kv.1 = f) (zip fields row)).
Proof.
  intros f. unfold dict_zip.
  induction (zip fields row) as [|[k c] l IH] using rev_ind; [done|].
  rewrite foldl_snoc, filter_app, filter_cons, filter_nil. simpl.
  destruct (decide (k = f)) as [->|Hne].
  - by rewrite lookup_insert_eq, last_snoc.
  - by rewrite lookup_insert_ne, app_nil_r.
Qed.

Lemma fst_zip_take {A B : Type} (l : list A) (k : list B) :
  (zip l k).*1 = take (length k) l.
Proof.
  revert k. induction l as [|x l IH]; intros [|y k]; simpl; try done.
  by rewrite IH.
Qed.

Lemma dict_zip_is_Some (fields row : list str) (f : str) :
  is_Some (dict_zip fields row !! f) <-> f ∈ take (length row) fields.
Proof.
  rewrite dict_zip_snoc, <- fst_zip_take, fmap_is_Some, list_elem_of_fmap.
  split.
  - intros [[k c] H]. apply last_Some_elem_of, list_elem_of_filter in H as [E H].
    by exists (k, c).
  - intros ([k c] & -> & H).
    assert ((k, c) ∈ filter (fun kv : str * str => kv.1 = k) (zip fields row)) as Hin
      by by apply list_elem_of_filter.
    destruct (last (filter (fun kv : str * str => kv.1 = k) (zip fields row))) eqn:E;
      [done|].
    apply last_None in E. rewrite E in Hin. by apply elem_of_nil in Hin.
Qed.

(** X19. The dict of a row of the RA file gives, for a field name, the cell
    of the rightmost column of that name within the width of the row; it has
    a key exactly for the names of the columns within that width. *)
Theorem dict_zip_lookup (fields row : list str) (f : str) :
  dict_zip fields row !! f
  = snd <$> last (filter (fun kv => kv.1 = f) (zip fields row)) /\
  (is_Some (dict_zip fields row !! f) <-> f ∈ take (length row) fields).
Proof. split; [apply dict_zip_snoc|apply dict_zip_is_Some]. Qed.

Lemma ra_cell_cases (data : gmap str str) (inventory_id language_name : str)
    (acc : list Entry) (f : str) :
  (f ∉ ra_metadata -> is_Some (data !! f)) /\
    ra_cell data inventory_id language_name acc f
    = Ok (acc ++ option_list
                   (if bool_decide (f ∈ ra_metadata) then None
                    else if bool_decide (data !! f = Some (lit "1"))
                         then Some (ra_entry inventory_id language_name f)
                         else None)) \/
  ~ (f ∉ ra_metadata -> is_Some (data !! f)) /\
    ra_cell data inventory_id language_name acc f = Raise KeyError.
Proof.
  unfold ra_cell, getitem. case_bool_decide as Hm.
  - left. split; [done|]. by rewrite app_nil_r.
  - destruct (data !! f) as [c|] eqn:E; cbn [bind].
    + left. split; [by eexists|].
      case_bool_decide as Hc; case_bool_decide as Hc'; simpl;
        rewrite ?app_nil_r; congruence.
    + right. split; [|done]. intros H. by destruct (H Hm).
Qed.

Lemma ra_row_cases (fields : list str) (acc : list Entry) (row : list str) :
  ra_complete fields row /\
    ra_row fields acc row = Ok (acc ++ ra_row_entries fields row) \/
  ~ ra_complete fields row /\ ra_row fields acc row = Raise KeyError.
Proof.
  unfold ra_row, ra_complete, ra_row_entries, getitem. cbv zeta.
  destruct (dict_zip fields row !! lit "InventoryID") as [i|] eqn:Ei; cbn [bind];
    [|right; split; [by intros ([? [=]] & _)|done]].
  destruct (dict_zip fields row !! lit "Language Name") as [l|] eqn:El; cbn [bind];
    [|right; split; [by intros (_ & [? [=]] & _)|done]].
  destruct (for_each_append (ra_cell (dict_zip fields row) i l)
              (fun f => f ∉ ra_metadata -> is_Some (dict_zip fields row !! f))
              (fun f => option_list
                 (if bool_decide (f ∈ ra_metadata) then None
                  else if bool_decide (dict_zip fields row !! f = Some (lit "1"))
                       then Some (ra_entry i l f) else None))
              KeyError fields acc) as [[Hall ->] | [Hbad ->]].
  - intros acc' f _. apply ra_cell_cases.
  - left. split; [by repeat split|]. do 2 f_equal. simpl.
    clear. generalize (dict_zip fields row). intros data.
    induction fields as [|f fields IH]; [done|].
    rewrite bind_cons, IH. simpl. by repeat case_bool_decide.
  - right. split; [|done]. by intros (_ & _ & H).
Qed.

(** X20. The RA reader returns exactly when every row has the keys it reads
    (["InventoryID"], ["Language Name"] and every column that is not
    metadata), and then returns, row after row and column after column, one
    entry per segment column whose cell is ["1"]; otherwise it raises
    [KeyError], as on a row that is narrower than the header. *)
Theorem read_phoible_ra_rows_spec (fields : list str) (rows : list (list str)) :
  (forall es, read_phoible_ra_rows fields rows = Ok es <->
     Forall (ra_complete fields) rows /\ es = rows ≫= ra_row_entries fields) /\
  (forall e, read_phoible_ra_rows fields rows = Raise e <->
     e = KeyError /\ ~ Forall (ra_complete fields) rows).
Proof.
  unfold read_phoible_ra_rows.
  destruct (for_each_append (ra_row fields) (ra_complete fields)
              (ra_row_entries fields) KeyError rows []) as [[Hall ->] | [Hbad ->]].
  - intros acc row _. apply ra_row_cases.
  - split.
    + intros es. simpl. split; [by intros [= <-]|by intros [_ ->]].
    + intros e. split; [done|]. by intros [_ H].
  - split.
    + intros es. split; [done|]. by intros [H _].
    + intros e. split; [by intros [= <-]|by intros [-> _]].
Qed.

(** The matrix of the specification: the cell of ["p"] is ["1"], that of
    ["t"] is empty. *)
Example read_phoible_ra_sample :
  read_phoible_ra_rows sample_ra_fields [sample_ra_row]
  = Ok [ra_entry (lit "R1") (lit "L1") (lit "p")].
Proof. reflexivity. Qed.

(** A row one cell short of the header. *)
Example read_phoible_ra_short_row :
  read_phoible_ra_rows sample_ra_fields [take 5 sample_ra_row] = Raise KeyError.
Proof. reflexivity. Qed.




(** X22. The segment columns of the SAPHON file are the columns after the
    first 17 and before the last 37; a file of 54 columns or fewer has none,
    and the reader returns no entry for it, whatever its rows hold. *)
Theorem saphon_segment_columns (fieldnames : list str) :
  length (slice_17_m37 fieldnames) = (length fieldnames - 54)%nat /\
  ((54 <= length fieldnames)%nat ->
   exists before after,
     fieldnames = before ++ slice_17_m37 fieldnames ++ after /\
     length before = 17%nat /\ length after = 37%nat) /\
  ((length fieldnames <= 54)%nat ->
   forall rows, read_phoible_saphon (Some fieldnames) rows = Ok []).
Proof.
  unfold slice_17_m37. split; [|split].
  - rewrite length_drop, length_take. lia.
  - intros L. exists (take 17 fieldnames), (drop (length fieldnames - 37) fieldnames).
    split; [|rewrite length_take, length_drop; lia].
    assert (take (length fieldnames - 37) fieldnames
            = take 17 fieldnames ++ drop 17 (take (length fieldnames - 37) fieldnames))
      as E.
    { rewrite <- (take_drop 17 (take (length fieldnames - 37) fieldnames)) at 1.
      by rewrite take_take, Nat.min_l by lia. }
    by rewrite app_assoc, <- E, take_drop.
  - intros L rows. unfold read_phoible_saphon, slice_17_m37.
    rewrite drop_ge by (rewrite length_take; lia).
    induction rows as [|row rows IH]; [done|]. exact IH.
Qed.

(** ** The UPSID reader *)

Lemma upsid_row_cases (lang_num2name : gmap str (gmap str str))
    (segments : gmap str str) (acc : list Entry) (row : Row) :
  upsid_row lang_num2name segments acc row
  = match upsid_row_entry lang_num2name segments row with
    | Some entry => Ok (acc ++ [entry])
    | None => Raise KeyError
    end.
Proof.
  unfold upsid_row, upsid_row_entry, getitem, lookup_cell.
  destruct (row !! lit "upsidLangNum") as [[num|]|]; simpl; try done.
  unfold getitem.
  destruct (lang_num2name !! num) as [lang|]; simpl; [|done].
  destruct (lang !! lit "id") as [i|]; simpl; [|done].
  destruct (lang !! lit "name") as [name|]; simpl; [|done].
  destruct (row !! lit "upsidCCID") as [[ccid|]|]; simpl; try done.
  destruct (segments !! ccid) as [ipa|]; simpl; [|done].
  by destruct (row !! lit "anomalous") as [a|].
Qed.

Lemma upsid_rows_mapM (lang_num2name : gmap str (gmap str str))
    (segments : gmap str str) (rows : list Row) (acc : list Entry) :
  for_each (upsid_row lang_num2name segments) rows acc
  = match mapM (upsid_row_entry lang_num2name segments) rows with
    | Some es => Ok (acc ++ es)
    | None => Raise KeyError
    end.
Proof.
  revert acc. induction rows as [|row rows IH]; intros acc.
  - simpl. by rewrite app_nil_r.
  - cbn [for_each mapM]. rewrite upsid_row_cases.
    destruct (upsid_row_entry lang_num2name segments row) as [entry|]; simpl; [|done].
    rewrite IH.
    destruct (mapM (upsid_row_entry lang_num2name segments) rows); simpl; [|done].
    by rewrite <- app_assoc.
Qed.

(** X23. When the loop over the segment file returns, it returns one entry per
    row, in the order of the rows; the entry of a row has the source
    ["PHOIBLE_UPSID"], an inventory, and the flag ["False"] when the cell
    ["anomalous"] of the row is ["0"], the flag ["True"] for any other cell.
    The loop raises exactly when a lookup of some row finds no key, and then
    [KeyError]. *)
Theorem read_upsid_segments_rows (lang_num2name : gmap str (gmap str str))
    (segments : gmap str str) (rows : list Row) :
  (forall es, read_upsid_segments lang_num2name segments rows = Ok es ->
     Forall2 (fun (row : Row) entry =>
                source entry = lit "PHOIBLE_UPSID" /\ is_Some (inv_id entry) /\
                (row !! lit "anomalous" = Some (Some (lit "0")) ->
                 marginal entry = Some (lit "False")) /\
                (row !! lit "anomalous" <> Some (Some (lit "0")) ->
                 marginal entry = Some (lit "True")))
       rows es) /\
  (forall e, read_upsid_segments lang_num2name segments rows = Raise e <->
     e = KeyError /\
     exists row, row ∈ rows /\ upsid_row_entry lang_num2name segments row = None).
Proof.
  unfold read_upsid_segments. rewrite upsid_rows_mapM.
  destruct (mapM (upsid_row_entry lang_num2name segments) rows) as [es|] eqn:M.
  - split.
    + intros es' [= <-]. apply mapM_Some_1 in M.
      eapply Forall2_impl; [exact M|]. intros row entry H. simpl in H.
      unfold upsid_row_entry in H.
      destruct (row !! lit "upsidLangNum") as [num|]; simpl in H; [|done].
      destruct (num ≫= (lang_num2name !!.)) as [lang|]; simpl in H; [|done].
      destruct (lang !! lit "id") as [i|]; simpl in H; [|done].
      destruct (lang !! lit "name") as [name|]; simpl in H; [|done].
      destruct (row !! lit "upsidCCID") as [ccid|]; simpl in H; [|done].
      destruct (ccid ≫= (segments !!.)) as [ipa|]; simpl in H; [|done].
      destruct (row !! lit "anomalous") as [a|]; simpl in H; [|done].
      injection H as <-. simpl. split; [done|]. split; [by eexists|].
      unfold str_ne_zero. case_bool_decide; split; congruence.
    + intros e. split; [done|]. intros (_ & row & Hin & Hnone).
      apply mapM_Some_1 in M.
      apply list_elem_of_lookup in Hin as [k Hk].
      destruct (Forall2_lookup_l _ _ _ _ _ M Hk) as (entry & _ & Hsome). congruence.
  - split; [done|]. intros e. split.
    + intros [= <-]. split; [done|].
      apply mapM_None_1, Exists_exists in M. exact M.
    + by intros [-> _].
Qed.

(** The sample row, flagged since its cell is ["1"]. *)
Example read_upsid_segments_sample :
  read_upsid_segments sample_lang_num2name sample_segments sample_upsid_rows
  = Ok [ {| lang_id := lit "UPSID_L7"; source := lit "PHOIBLE_UPSID";
            inv_id := Some (lit "B"); segment_raw := lit "(x)";
            marginal := Some (lit "True") |} ].
Proof. reflexivity. Qed.

Lemma for_each_app {S X : Type} (body : S -> X -> result S) (xs ys : list X) (st : S) :
  for_each body (xs ++ ys) st = (st' <- for_each body xs st ;; for_each body ys st').
Proof.
  revert st. induction xs as [|x xs IH]; intros st; [done|].
  simpl. destruct (body st x); [apply IH|done].
Qed.

Lemma rows_with_snoc (key value : str) (rows : list FullRow) (row : FullRow) :
  last (rows_with key value (rows ++ [row]))
  = if decide (row !! key = Some value) then Some row
    else last (rows_with key value rows).
Proof.
  unfold rows_with. rewrite filter_app, filter_cons, filter_nil.
  case_decide; [by rewrite last_snoc|by rewrite app_nil_r].
Qed.


(** The tables after the loop over the language file. *)
Lemma upsid_languages_fold (languages : list FullRow) (t0 t : UpsidTables) :
  for_each upsid_language languages t0 = Ok t ->
  (forall num,
     t.2 !! num
     = match last (rows_with (lit "LangNum") num languages) with
       | Some row => Some {[ lit "name" := default [] (row !! lit "LangName") ]}
       | None => t0.2 !! num
       end) /\
  (forall name,
     is_Some (t.1 !! name) <->
     is_Some (t0.1 !! name) \/ upsid_has (lit "LangName") languages name).
Proof.
  revert t. induction languages as [|row rows IH] using rev_ind; intros t H.
  - injection H as <-. split; [done|]. intros name. unfold upsid_has.
    split; [by left|]. intros [H | (row & Hin & _)]; [done|by apply elem_of_nil in Hin].
  - rewrite for_each_app in H. apply bind_Ok in H as (t' & H' & H).
    destruct (IH t' H') as [IH2 IH1]. simpl in H. unfold upsid_language, getitem in H.
    destruct (row !! lit "LangNum") as [num|] eqn:En; [|done].
    destruct (row !! lit "LangName") as [name|] eqn:El; [|done].
    cbn [bind] in H. destruct (Ok _) as [t''|] eqn:E in H; [|done].
    injection E as <-. injection H as <-. simpl. split.
    + intros k. rewrite rows_with_snoc, En.
      case_decide as D.
      * injection D as ->. by rewrite lookup_insert_eq, El.
      * rewrite lookup_insert_ne by congruence. apply IH2.
    + intros k. rewrite lookup_insert_is_Some, IH1. unfold upsid_has.
      split.
      * intros [-> | [_ [H | (r & Hin & Hr)]]].
        -- right. exists row. split; [apply elem_of_app; right; by left|done].
        -- by left.
        -- right. exists r. split; [apply elem_of_app; by left|done].
      * intros [H | (r & Hin & Hr)].
        -- destruct (decide (name = k)); [by left|right; split; [done|by left]].
        -- apply elem_of_app in Hin as [Hin | Hin%list_elem_of_singleton].
           ++ destruct (decide (name = k)); [by left|].
              right. split; [done|]. right. by exists r.
           ++ subst r. left. congruence.
Qed.


(** The tables after the loop over the language-code file: the keys are those
    before the loop, and a number named by a row has the inventory of the last
    such row under ["id"]. *)
Lemma upsid_codes_fold (codes : list FullRow) (t1 t2 : UpsidTables) :
  for_each upsid_code codes t1 = Ok t2 ->
  (forall name, is_Some (t2.1 !! name) <-> is_Some (t1.1 !! name)) /\
  (forall num,
     t2.2 !! num
     = (fun d => match last (rows_with (lit "upsidLangNum") num codes) with
                 | Some row => <[lit "id" := default [] (row !! lit "InventoryID")]> d
                 | None => d
                 end) <$> t1.2 !! num).
Proof.
  revert t2. induction codes as [|row rows IH] using rev_ind; intros t2 H.
  - injection H as <-. split; [done|]. intros num. simpl. by destruct (t1.2 !! num).
  - rewrite for_each_app in H. apply bind_Ok in H as (t' & H' & H).
    destruct (IH t' H') as [IH1 IH2]. simpl in H. unfold upsid_code, getitem in H.
    destruct (row !! lit "InventoryID") as [inv|] eqn:Ei; [|done]. cbn [bind] in H.
    destruct (row !! lit "LanguageName") as [name|] eqn:El; [|done]. cbn [bind] in H.
    destruct (t'.1 !! name) as [by_name|] eqn:En; [|done]. cbn [bind] in H.
    destruct (row !! lit "upsidLangNum") as [num|] eqn:Eu; [|done]. cbn [bind] in H.
    destruct (t'.2 !! num) as [by_num|] eqn:Em; [|done]. cbn [bind] in H.
    injection H as <-. simpl. split.
    + intros k. rewrite lookup_insert_is_Some, <- IH1.
      split; [intros [<- | [_ ?]]; [by eexists|done]|].
      intros ?. destruct (decide (name = k)); [by left|by right].
    + intros k. rewrite rows_with_snoc, Eu. case_decide as D.
      * injection D as ->. rewrite lookup_insert_eq.
        rewrite IH2 in Em. destruct (t1.2 !! k) as [d|]; [|done]. simpl in *.
        injection Em as <-. f_equal. rewrite Ei. simpl.
        destruct (last (rows_with (lit "upsidLangNum") k rows)); [|done].
        by rewrite insert_insert_eq.
      * rewrite lookup_insert_ne by congruence. apply IH2.
Qed.


(** X24. When the two language files are read, the table by number holds, for
    a language number, the name of the last row of the language file with
    that number and, under ["id"], the inventory of the last row of the code
    file with that number; a number that no row of the code file names has no
    ["id"], and a number that is not in the language file has no entry. *)
Theorem build_upsid_tables_lookup (languages codes : list FullRow)
    (tables : UpsidTables) (num : str) :
  build_upsid_tables languages codes = Ok tables ->
  tables.2 !! num
  = match last (rows_with (lit "LangNum") num languages) with
    | None => None
    | Some language =>
        let by_num : gmap str str :=
          {[ lit "name" := default [] (language !! lit "LangName") ]} in
        Some match last (rows_with (lit "upsidLangNum") num codes) with
             | Some code => <[lit "id" := default [] (code !! lit "InventoryID")]> by_num
             | None => by_num
             end
    end.
Proof.
  unfold build_upsid_tables. intros H. apply bind_Ok in H as (t1 & H1 & H2).
  apply upsid_languages_fold in H1 as [H1 _].
  apply upsid_codes_fold in H2 as [_ H2].
  rewrite H2, H1.
  by destruct (last (rows_with (lit "LangNum") num languages)).
Qed.







(** With IPA as the last column the field name is ["IPA"] and a line feed. *)
Example build_upsid_segments_last_column :
  split tab sample_charcode_header_last = [lit "CCID"; lit "IPA" ++ [10%N]] /\
  build_upsid_segments
    [sample_charcode_header_last; lit "c1" ++ [tab] ++ lit "p" ++ [10%N]]
  = Raise KeyError.
Proof. by split. Qed.

(** A file without a line, and a file with its header alone. *)
Example build_upsid_segments_empty_file :
  build_upsid_segments [] = Raise StopIteration /\
  build_upsid_segments [sample_charcode_header] = Ok ∅.
Proof. by split. Qed.

Example build_upsid_segments_sample :
  build_upsid_segments [sample_charcode_header; sample_charcode_line]
  = Ok {[ lit "c1" := lit "p" ]}.
Proof. by vm_compute. Qed.

(** Language 7 gets the inventory of the second of its code rows; language 8,
    without a code row, gets no ["id"]. *)
Lemma build_upsid_tables_lookup_witness :
  exists tables : UpsidTables,
    build_upsid_tables sample_languages sample_codes = Ok tables /\
    tables.2 !! lit "7"
    = Some (<[lit "id" := lit "B"]> {[ lit "name" := lit "L7" ]}) /\
    tables.2 !! lit "8" = Some {[ lit "name" := lit "L8" ]}.
Proof.
  eexists. split; [reflexivity|]. split.
  - etrans; [apply (build_upsid_tables_lookup sample_languages sample_codes)|];
      reflexivity.
  - by vm_compute.
Defined.

(** The whole reader on the sample files: the segment row of language 7. *)
Example read_phoible_upsid_sample :
  read_phoible_upsid sample_languages sample_codes
    [sample_charcode_header; sample_charcode_line]
    [ list_to_map [ (lit "upsidLangNum", Some (lit "7")); (lit "upsidCCID", Some (lit "c1"));
                    (lit "anomalous", Some (lit "0")) ] ]
  = Ok [ {| lang_id := lit "UPSID_L7"; source := lit "PHOIBLE_UPSID";
            inv_id := Some (lit "B"); segment_raw := lit "p";
            marginal := Some (lit "False") |} ].
Proof. by vm_compute. Qed.

(** A segment row of language 8, which has no inventory. *)
Example read_phoible_upsid_no_inventory :
  read_phoible_upsid sample_languages sample_codes
    [sample_charcode_header; sample_charcode_line]
    [ list_to_map [ (lit "upsidLangNum", Some (lit "8")); (lit "upsidCCID", Some (lit "c1"));
                    (lit "anomalous", Some (lit "0")) ] ]
  = Raise KeyError.
Proof. by vm_compute. Qed.

(** ** All the raw data *)


(** A loop whose body raises on the items that are not [ok], the exception
    depending on the item: it completes, or stops at the first such item. *)
Lemma for_each_first_failure {St X : Type} (ok : X -> Prop) (err : X -> exn)
    (body : St -> X -> result St) (xs : list X) (st : St) :
  (forall s x, x ∈ xs ->
     ok x /\ (exists s', body s x = Ok s') \/ ~ ok x /\ body s x = Raise (err x)) ->
  Forall ok xs /\ (exists st', for_each body xs st = Ok st') \/
  exists k x, xs !! k = Some x /\ Forall ok (take k xs) /\ ~ ok x /\
    for_each body xs st = Raise (err x).
Proof.
  revert st. induction xs as [|x xs IH]; intros st H.
  - left. split; [constructor|by eexists].
  - simpl. destruct (H st x) as [[Hx [s1 ->]] | [Hx ->]]; [by left| |]; cbn [bind].
    + destruct (IH s1) as [[Hxs Hok] | (k & y & Hk & Hpre & Hy & ->)].
      * intros s y Hy. apply H. by right.
      * left. split; [by constructor|done].
      * right. exists (S k), y. split; [done|]. split; [by constructor|done].
    + right. exists 0%nat, x. split; [done|]. split; [constructor|done].
Qed.

(** The first item that is not [ok] is the only one with an [ok] prefix. *)
Lemma first_failure_unique {X : Type} (ok : X -> Prop) (xs : list X) (j k : nat) (x y : X) :
  xs !! j = Some x -> Forall ok (take j xs) -> ~ ok x ->
  xs !! k = Some y -> Forall ok (take k xs) -> ~ ok y ->
  j = k /\ x = y.
Proof.
  intros Hj Pj Hx Hk Pk Hy.
  destruct (Nat.lt_trichotomy j k) as [L | [-> | L]].
  - exfalso. apply Hx. rewrite Forall_forall in Pk. apply Pk.
    apply list_elem_of_lookup. exists j. by rewrite lookup_take_lt.
  - split; [done|]. congruence.
  - exfalso. apply Hy. rewrite Forall_forall in Pj. apply Pj.
    apply list_elem_of_lookup. exists k. by rewrite lookup_take_lt.
Qed.










(** The sample files, and the same files with an RA file of two rows. *)
Example read_raw_phoible_data_sample :
  (exists data, read_raw_phoible_data sample_raw = Ok data /\ length data = 3%nat) /\
  read_raw_phoible_data
    {| AA_inventories := AA_inventories sample_raw;
       EA_inventories := EA_inventories sample_raw;
       ER_inventories := ER_inventories sample_raw;
       gm_afr_inventories := gm_afr_inventories sample_raw;
       gm_sea_inventories := gm_sea_inventories sample_raw;
       phoible_inventories := phoible_inventories sample_raw;
       UZ_inventories := UZ_inventories sample_raw;
       Ramaswami1999 := [[]; []];
       saphon20121031 := saphon20121031 sample_raw;
       UPSID_Languages := UPSID_Languages sample_raw;
       UPSID_LanguageCodes := UPSID_LanguageCodes sample_raw;
       UPSID_CharCodes := UPSID_CharCodes sample_raw;
       UPSID_Segments := UPSID_Segments sample_raw |}
  = Raise StopIteration.
Proof. split; [eexists; split; reflexivity|reflexivity]. Qed.

(** ** The languages *)

Lemma phoible_lang_row_cases (st : gmap str str * gset str) (row : Row) :
  language_row_ok row /\
    (exists id g, row !! lit "ID" = Some (Some id) /\ row !! lit "Glottocode" = Some g /\
       phoible_lang_row st row
       = Ok (<[inventory_of id := id]> st.1,
             match g with Some (c :: g) => {[ c :: g ]} ∪ st.2 | _ => st.2 end)) \/
  ~ language_row_ok row /\
    phoible_lang_row st row
    = Raise match row !! lit "ID" with Some None => AttributeError | _ => KeyError end.
Proof.
  unfold phoible_lang_row, language_row_ok, getitem. cbv zeta.
  destruct (row !! lit "ID") as [[id|]|]; cbn [bind str_method];
    [|right; split; [by intros [[? [=]] _]|done]..].
  destruct (row !! lit "Glottocode") as [g|]; cbn [bind];
    [|right; split; [by intros [_ [? [=]]]|done]].
  left. split; [split; by eexists|]. by exists id, g.
Qed.

Lemma phoible_lang_rows_cases (rows : list Row) (st : gmap str str * gset str) :
  Forall language_row_ok rows /\
    (exists st', for_each phoible_lang_row rows st = Ok st') \/
  exists k row, rows !! k = Some row /\ Forall language_row_ok (take k rows) /\
    ~ language_row_ok row /\
    for_each phoible_lang_row rows st
    = Raise match row !! lit "ID" with Some None => AttributeError | _ => KeyError end.
Proof.
  apply (for_each_first_failure language_row_ok
           (fun row : Row =>
              match row !! lit "ID" with Some None => AttributeError | _ => KeyError end)).
  intros s row _.
  destruct (phoible_lang_row_cases s row) as [(Hok & id & g & _ & _ & ->) | (Hbad & ->)].
  - left. split; [done|by eexists].
  - by right.
Qed.

Lemma phoible_lang_rows_fold (rows : list Row) (st0 st : gmap str str * gset str) :
  for_each phoible_lang_row rows st0 = Ok st ->
  (forall inventory,
     st.1 !! inventory
     = match last (filter (fun id => inventory_of id = inventory) (language_ids rows)) with
       | Some id => Some id
       | None => st0.1 !! inventory
       end) /\
  (forall g, g ∈ st.2 <->
     g ∈ st0.2 \/ exists row, row ∈ rows /\ glottocode_of row = Some g).
Proof.
  revert st. induction rows as [|row rows IH] using rev_ind; intros st H.
  - injection H as <-. split; [done|].
    intros g. split; [by left|]. intros [H | (row & Hin & _)]; [done|].
    by apply elem_of_nil in Hin.
  - rewrite for_each_app in H. apply bind_Ok in H as (s1 & H1 & H).
    destruct (IH s1 H1) as [IH1 IH2]. simpl in H.
    destruct (phoible_lang_row_cases s1 row)
      as [(_ & id & g & Ei & Eg & E) | (_ & E)]; rewrite E in H; [|done].
    cbn [bind] in H. injection H as <-. split.
    + intros inventory. unfold language_ids. rewrite omap_app. simpl. rewrite Ei. simpl.
      rewrite filter_app, filter_cons, filter_nil. cbn [fst]. case_decide as D.
      * rewrite <- D, lookup_insert_eq. by rewrite last_snoc.
      * rewrite lookup_insert_ne by done. rewrite app_nil_r. apply IH1.
    + intros g'. cbn [snd].
      assert (g' ∈ match g with Some (c :: g) => {[ c :: g ]} ∪ s1.2 | _ => s1.2 end <->
              g' ∈ s1.2 \/ glottocode_of row = Some g') as ->.
      { unfold glottocode_of. rewrite Eg. destruct g as [[|c g]|].
        - split; [by left|]. by intros [? | ?].
        - rewrite elem_of_union, elem_of_singleton. split.
          + intros [-> | ?]; [by right|by left].
          + intros [? | [= ->]]; [by right|by left].
        - split; [by left|]. by intros [? | ?]. }
      rewrite IH2. split.
      * intros [[? | (r & Hin & Hr)] | Hr].
        -- by left.
        -- right. exists r. split; [|done]. apply elem_of_app. by left.
        -- right. exists row. split; [|done].
           apply elem_of_app. right. by apply list_elem_of_singleton.
      * intros [? | (r & Hin & Hr)]; [by left; left|].
        apply elem_of_app in Hin as [Hin | Hin].
        -- left. right. by exists r.
        -- apply list_elem_of_singleton in Hin as ->. by right.
Qed.

(** X28. The first loop over the language file returns exactly when every row
    has an ID cell and the key of the glottocode.  It raises at the first
    row that has not: [AttributeError] when the ID of that row is [None] (a
    row shorter than the header), [KeyError] otherwise.  When it returns, the
    table it builds maps an inventory to the last ID of the file that starts
    with that inventory and an underscore (or is the inventory itself), so no
    key holds an underscore; and the glottocodes it collects are the
    non-empty glottocode cells of the rows. *)
Theorem build_phoible_lang_spec (rows : list Row) :
  ((exists mapping, build_phoible_lang rows = Ok mapping) <->
     Forall language_row_ok rows) /\
  (forall e, build_phoible_lang rows = Raise e <->
     exists k row, rows !! k = Some row /\ Forall language_row_ok (take k rows) /\
       ~ language_row_ok row /\
       (e = AttributeError /\ row !! lit "ID" = Some None \/
        e = KeyError /\ row !! lit "ID" <> Some None)) /\
  (forall phoible_lang glottocodes,
     build_phoible_lang rows = Ok (phoible_lang, glottocodes) ->
     (forall inventory,
        phoible_lang !! inventory
        = last (filter (fun id => inventory_of id = inventory) (language_ids rows)) /\
        (is_Some (phoible_lang !! inventory) -> chr "_" ∉ inventory)) /\
     (forall g, g ∈ glottocodes <->
        exists row, row ∈ rows /\ glottocode_of row = Some g)).
Proof.
  unfold build_phoible_lang.
  assert (forall (row : Row) e,
            e = match row !! lit "ID" with Some None => AttributeError | _ => KeyError end <->
            e = AttributeError /\ row !! lit "ID" = Some None \/
            e = KeyError /\ row !! lit "ID" <> Some None) as Herr.
  { intros row e. destruct (row !! lit "ID") as [[id|]|].
    - split; [intros ->; by right|by intros [[_ [=]] | [-> _]]].
    - split; [intros ->; by left|]. by intros [[-> _] | [_ ?]].
    - split; [intros ->; by right|by intros [[_ [=]] | [-> _]]]. }
  split; [|split].
  - destruct (phoible_lang_rows_cases rows (∅, ∅))
      as [[Ha Hb] | (k & row & Hk & Hpre & Hbad & E)].
    + done.
    + rewrite E. split; [by intros [? [=]]|]. intros Hall. exfalso. apply Hbad.
      rewrite Forall_forall in Hall. apply Hall. by apply list_elem_of_lookup_2 in Hk.
  - intros e.
    destruct (phoible_lang_rows_cases rows (∅, ∅))
      as [[Ha [s' Hb]] | (k & row & Hk & Hpre & Hbad & E)].
    + rewrite Hb. split; [done|]. intros (j & r & Hj & _ & Hr & _). exfalso. apply Hr.
      rewrite Forall_forall in Ha. apply Ha. by apply list_elem_of_lookup_2 in Hj.
    + rewrite E. split.
      * intros [= <-]. exists k, row. repeat (split; [done|]). by apply Herr.
      * intros (j & r & Hj & Pj & Hr & He).
        destruct (first_failure_unique language_row_ok rows j k r row) as [_ ->];
          try done.
        apply Herr in He. by rewrite He.
  - intros phoible_lang glottocodes H.
    destruct (phoible_lang_rows_fold _ _ _ H) as [H1 H2]. cbn [fst snd] in H1, H2.
    split.
    + intros inventory.
      assert (phoible_lang !! inventory
              = last (filter (fun id => inventory_of id = inventory) (language_ids rows)))
        as E.
      { rewrite H1, lookup_empty. by destruct (last _). }
      split; [done|]. rewrite E. intros [id Hid].
      apply last_Some_elem_of, list_elem_of_filter in Hid as [<- _].
      apply split_head_free.
    + intros g. rewrite H2. split.
      * by intros [? | ?].
      * by right.
Qed.

(** The sample rows; a file whose second row is shorter than the header and
    carries no ID; and a file without the column of the IDs. *)
Example build_phoible_lang_sample :
  build_phoible_lang sample_language_rows = Ok sample_mapping /\
  build_phoible_lang
    [ list_to_map [ (lit "ID", Some (lit "A_first")); (lit "Glottocode", Some []) ];
      list_to_map [ (lit "ID", None); (lit "Glottocode", None) ] ]
  = Raise AttributeError /\
  build_phoible_lang [ list_to_map [ (lit "Glottocode", Some []) ] ] = Raise KeyError.
Proof.
  split; [vm_cast_no_check (eq_refl (Ok sample_mapping))|].
  split; vm_compute; reflexivity.
Qed.

Lemma cache_languoids_lookup {coord : Type} (glottocodes : gset str)
    (glottolog : list (Glottolog.Languoid coord)) (g : str) :
  cache_languoids glottocodes glottolog !! g
  = if bool_decide (g ∈ glottocodes)
    then last (filter (fun languoid => Glottolog.glottocode languoid = g) glottolog)
    else None.
Proof.
  unfold cache_languoids.
  induction glottolog as [|l glottolog IH] using rev_ind.
  - simpl. rewrite lookup_empty. by case_bool_decide.
  - rewrite foldl_snoc, filter_app, filter_cons, filter_nil.
    destruct (decide (Glottolog.glottocode l = g)) as [E|Hne].
    + rewrite E, last_snoc. by case_bool_decide; [rewrite lookup_insert_eq|].
    + rewrite app_nil_r.
      destruct (bool_decide (Glottolog.glottocode l ∈ glottocodes)); [|exact IH].
      by rewrite lookup_insert_ne.
Qed.

Lemma bind_singleton_fmap {A B : Type} (f : A -> B) (l : list A) :
  l ≫= (fun x => [f x]) = f <$> l.
Proof. induction l as [|x l IH]; [done|]. by rewrite bind_cons, IH. Qed.

Lemma languages_row_cases {coord : Type} (glottocodes : gset str)
    (glottolog : list (Glottolog.Languoid coord))
    (languages : list (gmap str (lang_field coord))) (row : Row) :
  (forall g, glottocode_of row = Some g -> g ∈ glottocodes) ->
  languages_row_ok (in_glottolog glottolog) row /\
    languages_row (cache_languoids glottocodes glottolog) languages row
    = Ok (languages ++ [lang_dict_of glottolog row]) \/
  ~ languages_row_ok (in_glottolog glottolog) row /\
    languages_row (cache_languoids glottocodes glottolog) languages row = Raise KeyError.
Proof.
  intros Hcodes. revert Hcodes.
  unfold languages_row, languages_row_ok, lang_dict_of, glottocode_of, getitem. cbv zeta.
  destruct (row !! lit "ID") as [id|]; cbn [bind];
    [|right; split; [by intros [[? [=]] _]|done]].
  destruct (row !! lit "Name") as [name|]; cbn [bind];
    [|right; split; [by intros (_ & [? [=]] & _)|done]].
  destruct (row !! lit "Glottocode") as [g|] eqn:Eg; cbn [bind];
    [|right; split; [by intros (_ & _ & [? [=]] & _)|done]].
  intros Hcodes. destruct g as [[|c g]|].
  - left. split; [|done]. by repeat (split; [by eexists|]).
  - rewrite cache_languoids_lookup.
    rewrite bool_decide_eq_true_2 by (by apply Hcodes).
    destruct (last (filter _ glottolog)) as [lang|] eqn:El; cbn [bind].
    + left. split; [|done]. repeat (split; [by eexists|]).
      intros g' [= <-]. apply last_Some_elem_of, list_elem_of_filter in El as [E Hin].
      by exists lang.
    + right. split; [|done]. intros (_ & _ & _ & Hknown).
      destruct (Hknown (c :: g) eq_refl) as (lang & Hin & E).
      assert (lang ∈ filter (fun languoid => Glottolog.glottocode languoid = c :: g)
                glottolog) as Hf by (by apply list_elem_of_filter).
      apply last_None in El. rewrite El in Hf. by apply elem_of_nil in Hf.
  - left. split; [|done]. by repeat (split; [by eexists|]).
Qed.

Lemma build_languages_cases {coord : Type} (glottocodes : gset str)
    (glottolog : list (Glottolog.Languoid coord)) (rows : list Row) :
  (forall row g, row ∈ rows -> glottocode_of row = Some g -> g ∈ glottocodes) ->
  Forall (languages_row_ok (in_glottolog glottolog)) rows /\
    build_languages glottocodes glottolog rows = Ok (lang_dict_of glottolog <$> rows) \/
  ~ Forall (languages_row_ok (in_glottolog glottolog)) rows /\
    build_languages glottocodes glottolog rows = Raise KeyError.
Proof.
  intros Hcodes. unfold build_languages. cbv zeta.
  rewrite <- bind_singleton_fmap.
  apply (for_each_append (languages_row (cache_languoids glottocodes glottolog))
           (languages_row_ok (in_glottolog glottolog))
           (fun row => [lang_dict_of glottolog row]) KeyError rows []).
  intros acc row Hin. apply languages_row_cases. intros g. by apply Hcodes.
Qed.

Lemma build_phoible_lang_glottocodes (rows : list Row)
    (mapping : gmap str str * gset str) :
  build_phoible_lang rows = Ok mapping ->
  forall row g, row ∈ rows -> glottocode_of row = Some g -> g ∈ mapping.2.
Proof.
  intros H row g Hin Hg.
  apply phoible_lang_rows_fold in H as [_ H]. apply H. right. by exists row.
Qed.

Lemma build_phoible_lang_rows_ok (rows : list Row) (mapping : gmap str str * gset str) :
  build_phoible_lang rows = Ok mapping -> Forall language_row_ok rows.
Proof.
  unfold build_phoible_lang. intros H.
  destruct (phoible_lang_rows_cases rows (∅, ∅)) as [[Ha _] | (k & row & _ & _ & _ & E)];
    [done|congruence].
Qed.

Lemma lang_dict_of_ID {coord : Type} (glottolog : list (Glottolog.Languoid coord))
    (row : Row) :
  lang_dict_of glottolog row !! lit "ID"
  = Some (str_or_None (mjoin (row !! lit "ID"))) /\
  lang_dict_of glottolog row !! lit "Name"
  = Some (str_or_None (mjoin (row !! lit "Name"))).
Proof.
  unfold lang_dict_of, lang_dict_update. cbv zeta.
  destruct (glottocode_of row) as [g|];
    [destruct (last (filter _ glottolog))|];
    split; by repeat (rewrite lookup_insert_ne by done);
      rewrite ?lookup_insert_eq, ?lookup_singleton_eq.
Qed.

(** X29. With the glottocodes the first loop collected, the second loop over
    the language file raises exactly when a row lacks its ID, its name or its
    glottocode, or has a glottocode that no languoid of Glottolog has, and
    then [KeyError].  Otherwise it returns one dict per row, in the order of
    the file, with the ID and the name of the row (the name [None] for a row
    too short to have one); the dict of a row with a glottocode holds the
    data of the last languoid of Glottolog with that glottocode, the dict of
    a row without one has the two keys only. *)
Theorem build_languages_spec {coord : Type} (glottolog : list (Glottolog.Languoid coord))
    (rows : list Row) (mapping : gmap str str * gset str) :
  build_phoible_lang rows = Ok mapping ->
  (forall e, build_languages mapping.2 glottolog rows = Raise e <->
     e = KeyError /\ ~ Forall (languages_row_ok (in_glottolog glottolog)) rows) /\
  (forall languages, build_languages mapping.2 glottolog rows = Ok languages ->
     languages = lang_dict_of glottolog <$> rows /\
     Forall2 (fun (row : Row) d =>
                (exists id, row !! lit "ID" = Some (Some id) /\
                   d !! lit "ID" = Some (LStr id)) /\
                (exists name, row !! lit "Name" = Some name /\
                   d !! lit "Name" = Some (str_or_None name)) /\
                (glottocode_of row = None -> dom d = {[ lit "ID"; lit "Name" ]}))
       rows languages).
Proof.
  intros Hmap. pose proof (build_phoible_lang_rows_ok rows mapping Hmap) as Hids.
  destruct (build_languages_cases mapping.2 glottolog rows
              (build_phoible_lang_glottocodes rows mapping Hmap)) as [[Hok ->] | [Hbad ->]].
  - split.
    + intros e. split; [done|]. by intros [_ H].
    + intros languages [= <-]. split; [done|].
      apply Forall2_fmap_r, Forall_Forall2_diag.
      rewrite Forall_forall in Hok, Hids. apply Forall_forall. intros row Hin.
      destruct (Hok row Hin) as (_ & [name Hname] & _).
      destruct (Hids row Hin) as [[id Hid] _].
      destruct (lang_dict_of_ID glottolog row) as [E1 E2].
      rewrite Hid in E1. rewrite Hname in E2.
      split; [by exists id|]. split; [by exists name|].
      intros Hg. unfold lang_dict_of. rewrite Hg. cbv zeta.
      rewrite dom_insert_L, dom_singleton_L. apply set_eq. intros k.
      rewrite !elem_of_union, !elem_of_singleton. tauto.
  - split.
    + intros e. split; [by intros [= <-]|by intros [-> _]].
    + by intros languages.
Qed.

Lemma build_languages_spec_witness :
  build_phoible_lang sample_language_rows = Ok sample_mapping /\
  forall languages,
    build_languages sample_mapping.2 sample_glottolog sample_language_rows = Ok languages ->
    languages = lang_dict_of sample_glottolog <$> sample_language_rows.
Proof.
  assert (build_phoible_lang sample_language_rows = Ok sample_mapping) as Hm
    by (vm_cast_no_check (eq_refl (Ok sample_mapping))).
  split; [exact Hm|]. intros languages H.
  apply (build_languages_spec sample_glottolog _ _ Hm), H.
Defined.

(** Of the two languoids with the glottocode of the first row, the second
    gives the name; the second row, without a glottocode, gets none. *)
Example build_languages_sample :
  build_languages sample_mapping.2 sample_glottolog sample_language_rows
  = Ok (lang_dict_of sample_glottolog <$> sample_language_rows) /\
  (fun d : gmap str (lang_field N) => d !! lit "Glottolog_Name")
    <$> (lang_dict_of sample_glottolog <$> sample_language_rows)
  = [Some (LStr (lit "New")); None; Some (LStr (lit "New"))].
Proof.
  split; [|vm_compute; reflexivity].
  vm_cast_no_check (eq_refl (Ok (lang_dict_of sample_glottolog <$> sample_language_rows))).
Qed.

(** X30. In what the method hands to the writer, every row of the value table
    refers to a dict of the language table: its [Language_ID] is the ID of
    one of the dicts, and the text of that ID before its first underscore is
    the [Contribution_ID] of the row. *)
Theorem values_refer_to_languages {coord : Type} (nfc unidecode : str -> str)
    (slug : str -> option str) (bipa : str -> Sound)
    (set_order : set_iteration ParameterTuple)
    (bibtex_rows : list (str * str)) (language_rows : list Row)
    (glottolog : list (Glottolog.Languoid coord)) (raw : RawData)
    (values : list Value) (languages : list (gmap str (lang_field coord)))
    (segments : list Segment) :
  cmd_makecldf nfc unidecode slug bipa set_order bibtex_rows language_rows glottolog raw
  = Ok (values, languages, segments) ->
  length languages = length language_rows /\
  forall v, v ∈ values ->
    exists language_id d,
      v !! lit "Language_ID" = Some (Str language_id) /\
      v !! lit "Contribution_ID" = Some (Str (inventory_of language_id)) /\
      d ∈ languages /\ d !! lit "ID" = Some (LStr language_id).
Proof.
  unfold cmd_makecldf. cbv zeta. intros H.
  apply bind_Ok in H as (mapping & Hmap & H).
  apply bind_Ok in H as (languages' & Hlang & H).
  apply bind_Ok in H as (data & _ & H).
  apply bind_Ok in H as ([values' segments'] & Hagg & H).
  injection H as <- <- <-.
  destruct (build_languages_cases mapping.2 glottolog language_rows
              (build_phoible_lang_glottocodes language_rows mapping Hmap))
    as [[Hok E] | [_ E]]; rewrite E in Hlang; [|done].
  injection Hlang as <-. split; [by rewrite length_fmap|].
  intros v Hv.
  apply aggregate_Ok_turns in Hagg as (turns & M & -> & _).
  apply elem_of_lookup_imap in Hv as (k & t & -> & Ht).
  apply list_elem_of_lookup_2 in Ht.
  destruct (mapM_turns _ _ _ _ _ _ _ _ M Ht) as (entry & _ & Hturn).
  apply turn_of_Some in Hturn as (_ & _ & _ & _ & _ & _ & Hl & _).
  apply phoible_lang_rows_fold in Hmap as [Hmap _]. rewrite Hmap in Hl.
  cbn [fst] in Hl. rewrite lookup_empty in Hl.
  destruct (last (filter _ (language_ids language_rows))) as [id|] eqn:El; [|done].
  injection Hl as Hl.
  apply last_Some_elem_of, list_elem_of_filter in El as [Einv Hin].
  apply list_elem_of_omap in Hin as (row & Hrow & Hid).
  exists (turn_language t), (lang_dict_of glottolog row).
  split; [row_lookup|].
  split; [rewrite <- Hl, Einv; row_lookup|].
  split; [by apply list_elem_of_fmap_2|].
  destruct (lang_dict_of_ID glottolog row) as [-> _]. by rewrite Hid, Hl.
Qed.

Lemma values_refer_to_languages_witness :
  cmd_makecldf nfc_ascii unidecode_ascii slug_ascii bipa_sample set_order_sample
    sample_bibtex_rows sample_language_rows sample_glottolog sample_raw
  = Ok sample_tables /\
  length sample_tables.1.1 = 3%nat /\ length sample_tables.1.2 = 3%nat /\
  forall v, v ∈ sample_tables.1.1 ->
    exists language_id d,
      v !! lit "Language_ID" = Some (Str language_id) /\
      v !! lit "Contribution_ID" = Some (Str (inventory_of language_id)) /\
      d ∈ sample_tables.1.2 /\ d !! lit "ID" = Some (LStr language_id).
Proof.
  assert (cmd_makecldf nfc_ascii unidecode_ascii slug_ascii bipa_sample set_order_sample
            sample_bibtex_rows sample_language_rows sample_glottolog sample_raw
          = Ok sample_tables) as E
    by (vm_cast_no_check (eq_refl (Ok sample_tables))).
  split; [exact E|]. split; [reflexivity|].
  exact (values_refer_to_languages _ _ _ _ _ _ _ _ _
           sample_tables.1.1 sample_tables.1.2 sample_tables.2 E).
Defined.
